(** * Product deduplication: a shallow embedding of [deduplicate_simple.py]

    The script reads a table of product records, derives a grouping key
    per record ([page_url] plus the first 20 characters of a normalized
    description), groups the records by that key and merges every group
    into its most complete record.

    Modelling choices.
    - A Python [str] is a [string]; a character is a code point of the
      Latin-1 range (0..255), on which [str.lower], [str.strip] and
      [str.split] are the functions below.  Text outside that range is
      not modelled.
    - A cell of the table is a [value]: a scalar, a Python list or a
      one-dimensional [numpy.ndarray] of scalars.
    - A [pandas.Series] (one record) is a finite map from column names to
      cells; a [DataFrame] is a list of columns and a list of records.
      Index labels are unique (the [RangeIndex] of [read_parquet]), so a
      label is identified with the position of its record.
    - Python exceptions are the [Raise] results of the [result] monad. *)

From Stdlib Require Import ZArith Ascii String NArith.
From stdpp Require Import base option list gmap strings fin_maps sorting.

Local Open Scope Z_scope.

(** ** Exceptions *)

Inductive exn : Set := KeyError | TypeError | ValueError | AttributeError.

Inductive result (A : Type) : Type :=
| Ok (a : A)
| Raise (e : exn).
Arguments Ok {A} a.
Arguments Raise {A} e.

#[global] Instance result_bind : MBind result := λ A B k m,
  match m with
  | Ok a => k a
  | Raise e => Raise e
  end.

#[global] Instance result_ret : MRet result := λ A a, Ok a.

(** A loop that calls [f] on every element and stops at the first
    exception. *)
Fixpoint for_each {A B : Type} (f : A → result B) (l : list A) : result (list B) :=
  match l with
  | [] => Ok []
  | a :: l' => b ← f a; bs ← for_each f l'; Ok (b :: bs)
  end.

(** ** Python strings *)

Module PyStr.

Definition code (c : ascii) : N := N_of_ascii c.

(** [str.isspace] on one character: TAB..CR, FS..US, SPACE, NEL, NBSP. *)
Definition isspace (c : ascii) : bool :=
  let n := code c in
  ((9 <=? n) && (n <=? 13) || (28 <=? n) && (n <=? 32)
   || (n =? 133) || (n =? 160))%N.

(** [str.lower] on one character: A..Z and the accented capitals
    of Latin-1 (all of 192..222 but the multiplication sign 215). *)
Definition lower_char (c : ascii) : ascii :=
  let n := code c in
  if ((65 <=? n) && (n <=? 90)
      || (192 <=? n) && (n <=? 222) && negb (n =? 215))%N
  then ascii_of_N (n + 32) else c.

Fixpoint lower (s : string) : string :=
  match s with
  | EmptyString => EmptyString
  | String c s' => String (lower_char c) (lower s')
  end.

Fixpoint lstrip (s : string) : string :=
  match s with
  | EmptyString => EmptyString
  | String c s' => if isspace c then lstrip s' else s
  end.

Fixpoint rstrip (s : string) : string :=
  match s with
  | EmptyString => EmptyString
  | String c s' =>
      match rstrip s' with
      | EmptyString => if isspace c then EmptyString else String c EmptyString
      | t => String c t
      end
  end.

(** [s.strip()] *)
Definition strip (s : string) : string := rstrip (lstrip s).

(** [s.split()]: the maximal runs of non-whitespace characters. *)
Fixpoint split (s : string) : list string :=
  match s with
  | EmptyString => []
  | String c s' =>
      if isspace c then split s'
      else match s' with
           | EmptyString => [String c EmptyString]
           | String c' _ =>
               if isspace c' then String c EmptyString :: split s'
               else match split s' with
                    | w :: ws => String c w :: ws
                    | [] => [String c EmptyString]
                    end
           end
  end.

(** [sep.join(ws)] *)
Definition join (sep : string) (ws : list string) : string :=
  String.concat sep ws.

(** [s[:n]] *)
Fixpoint slice_to (n : nat) (s : string) : string :=
  match n, s with
  | S n', String c s' => String c (slice_to n' s')
  | _, _ => EmptyString
  end.

(** [c in s] for a single character *)
Fixpoint has_char (c : ascii) (s : string) : bool :=
  match s with
  | EmptyString => false
  | String c' s' => if Ascii.eqb c c' then true else has_char c s'
  end.

(** The first character of [s] is a whitespace character. *)
Definition starts_space (s : string) : bool :=
  match s with String c _ => isspace c | EmptyString => false end.

(** [s] has no whitespace character. *)
Fixpoint no_space (s : string) : bool :=
  match s with
  | EmptyString => true
  | String c s' => negb (isspace c) && no_space s'
  end.

(** A word: what [split] returns, a non-empty string without whitespace. *)
Definition is_word (s : string) : bool :=
  negb (String.eqb s EmptyString) && no_space s.

(** Python compares strings by code point, lexicographically. *)
Definition ltb (s1 s2 : string) : bool := String.ltb s1 s2.

End PyStr.

(** ** Cell values *)

(** [PyNum] stands for any [int] or any [float] other than NaN: the
    script tests numbers for truth and for missingness only. *)
Inductive scalar : Type :=
| PyNone
| NaN
| PyBool (b : bool)
| PyNum (z : Z)
| PyStr (s : string).

Inductive value : Type :=
| Scalar (x : scalar)
| PyList (xs : list scalar)
| NdArray (xs : list scalar).

Coercion Scalar : scalar >-> value.

Definition truth_scalar (x : scalar) : bool :=
  match x with
  | PyNone => false
  | NaN => true
  | PyBool b => b
  | PyNum z => negb (z =? 0)
  | PyStr s => negb (String.eqb s EmptyString)
  end.

(** [bool(value)], as the test [if value] takes it.  Only an array of
    exactly one element has a truth value, that of its element: an array
    of two or more elements and an empty array raise [ValueError] (here
    [None]; for the empty array since NumPy 2.2, before which it was
    false with a deprecation warning). *)
Definition truth (v : value) : option bool :=
  match v with
  | Scalar x => Some (truth_scalar x)
  | PyList xs => Some (negb (bool_decide (xs = [])))
  | NdArray [x] => Some (truth_scalar x)
  | NdArray _ => None
  end.

(** [pd.isna] on a scalar. *)
Definition isna_scalar (x : scalar) : bool :=
  match x with
  | PyNone | NaN => true
  | _ => false
  end.

(** [bool(pd.isna(value))], as the test [if pd.isna(value)] takes it.
    On a list or an array [pd.isna] answers element by element with a
    boolean array, which has the truth value of its element when it has
    exactly one and none ([ValueError]) when it has two or more. *)
Definition isna_truth (v : value) : option bool :=
  match v with
  | Scalar x => Some (isna_scalar x)
  | PyList [] | NdArray [] => Some false
  | PyList [x] | NdArray [x] => Some (isna_scalar x)
  | PyList (_ :: _ :: _) | NdArray (_ :: _ :: _) => None
  end.

Definition is_none (v : value) : bool :=
  match v with Scalar PyNone => true | _ => false end.

Definition is_blank_str (v : value) : bool :=
  match v with Scalar (PyStr s) => String.eqb (PyStr.strip s) EmptyString | _ => false end.

Definition is_list_of_len0 (v : value) : bool :=
  match v with PyList xs => (length xs =? 0)%nat | _ => false end.

Definition is_ndarray_of_size0 (v : value) : bool :=
  match v with NdArray xs => (length xs =? 0)%nat | _ => false end.

(** [is_empty], lines 56-70.  The [try] around [pd.isna] catches the
    [ValueError] of a test without truth value and falls through to
    [return False]. *)
Definition is_empty (v : value) : bool :=
  if is_none v then true
  else if is_blank_str v then true
  else if is_list_of_len0 v then true
  else if is_ndarray_of_size0 v then true
  else match isna_truth v with
       | Some true => true
       | Some false => false
       | None => false
       end.

(** ** Records and tables *)

(** A record ([pandas.Series]): its index is the domain of the map. *)
Abbreviation row := (gmap string value).

Record frame : Type := Frame { columns : list string; rows : list row }.

(** [r[c]] inside a table: a record that lacks a column of its table
    holds NaN there. *)
Definition cell (c : string) (r : row) : value := default (Scalar NaN) (r !! c).

(** [df[c]] *)
Definition get_col (c : string) (df : frame) : result (list value) :=
  if bool_decide (c ∈ columns df) then Ok (cell c <$> rows df) else Raise KeyError.

(** [df[c] = vals]: an existing column is overwritten in place, a new
    one is appended. *)
Definition set_col (c : string) (vals : list value) (df : frame) : frame :=
  {| columns := if bool_decide (c ∈ columns df) then columns df else columns df ++ [c];
     rows := zip_with (λ r v, <[c := v]> r) (rows df) vals |}.

(** ** Key Deriver, lines 19-50 *)

Definition candidate_fields : list string :=
  ["product_summary"; "description"; "product_title"; "product_name"].

(** The loop of [get_description] over the fields still to try. *)
Fixpoint get_description_from (fields : list string) (r : row) : result string :=
  match fields with
  | [] => Ok EmptyString
  | field :: rest =>
      match r !! field with
      | None => get_description_from rest r
      | Some v =>
          match truth v with
          | None => Raise ValueError
          | Some false => get_description_from rest r
          | Some true =>
              match v with
              | Scalar (PyStr s) =>
                  if (3 <=? String.length (PyStr.strip s))%nat then Ok (PyStr.strip s)
                  else get_description_from rest r
              | _ => get_description_from rest r
              end
          end
      end
  end.

Definition get_description (r : row) : result string :=
  get_description_from candidate_fields r.

(** [normalize], on the strings the script applies it to. *)
Definition normalize (text : string) : string :=
  if String.eqb text EmptyString then EmptyString
  else PyStr.join " " (PyStr.split (PyStr.strip (PyStr.lower text))).

(** [.str[:20]] on one element: a slice of a string, NaN for anything else. *)
Definition str_slice_to (n : nat) (v : value) : value :=
  match v with
  | Scalar (PyStr s) => PyStr (PyStr.slice_to n s)
  | _ => NaN
  end.

(** [.fillna(x)] on one element of an object column. *)
Definition fillna (x : string) (v : value) : value :=
  match v with
  | Scalar PyNone | Scalar NaN => PyStr x
  | _ => v
  end.

(** [+] on one element of an object column: null elements are masked
    and give NaN, strings are concatenated, anything else is a
    [TypeError] (at the latest when the result is used as a group key). *)
Definition obj_add (a b : value) : result value :=
  match a, b with
  | Scalar PyNone, _ | Scalar NaN, _ | _, Scalar PyNone | _, Scalar NaN => Ok (Scalar NaN)
  | Scalar (PyStr x), Scalar (PyStr y) => Ok (Scalar (PyStr (x +:+ y)))
  | _, _ => Raise TypeError
  end.

(** A null value of a column. *)
Definition is_null (v : value) : bool :=
  match v with
  | Scalar PyNone | Scalar NaN => true
  | _ => false
  end.

(** [.str] on a column: a column assigned from the empty list (the
    table has no record) is a float64 column, which has no string
    accessor. *)
Definition str_accessor (col : list value) : result unit :=
  match col with
  | [] => Raise AttributeError
  | _ => Ok ()
  end.

(** The left operand of [+ '|||']: a column in which every value is
    null holds no text (it is an object column of nulls or a float64
    column), and adding a string to it raises. *)
Definition text_operand (col : list value) : result unit :=
  if forallb is_null col then Raise TypeError else Ok ().

(** Lines 29-50: the table with its four derived columns. *)
Definition derive_keys (df : frame) : result frame :=
  descriptions ← for_each get_description (rows df);
  let df := set_col "description" ((Scalar ∘ PyStr) <$> descriptions) df in
  let normalized := (Scalar ∘ PyStr ∘ normalize) <$> descriptions in
  let df := set_col "normalized_desc" normalized df in
  _ ← str_accessor normalized;
  let desc_prefix := (fillna "NO_DESC" ∘ str_slice_to 20) <$> normalized in
  let df := set_col "desc_prefix" desc_prefix df in
  page_url ← get_col "page_url" df;
  _ ← text_operand page_url;
  with_sep ← for_each (λ u, obj_add u (PyStr "|||")) page_url;
  dedup_key ← for_each (λ up, obj_add up.1 up.2) (zip with_sep desc_prefix);
  Ok (set_col "dedup_key" dedup_key df).

(** The prefixes [derive_keys] computes from the descriptions. *)
Definition desc_prefixes (descriptions : list string) : list value :=
  (fillna "NO_DESC" ∘ str_slice_to 20) <$> ((Scalar ∘ PyStr ∘ normalize) <$> descriptions).

(** The table after lines 35, 45 and 49: its first three derived
    columns set from the descriptions. *)
Definition with_descriptions (df : frame) (descriptions : list string) : frame :=
  set_col "desc_prefix" (desc_prefixes descriptions)
    (set_col "normalized_desc" ((Scalar ∘ PyStr ∘ normalize) <$> descriptions)
       (set_col "description" ((Scalar ∘ PyStr) <$> descriptions) df)).

(** ** Group Merger, lines 73-124 *)

Definition temp_cols : list string :=
  ["description"; "normalized_desc"; "desc_prefix"; "dedup_key"].

(** The count of line 83: the columns outside [temp_cols] whose cell is
    not empty. *)
Definition completeness (cols : list string) (r : row) : Z :=
  Z.of_nat (length (filter (λ col, (col ∉ temp_cols) ∧ is_empty (cell col r) = false) cols)).

(** The loop of lines 82-87, at label [idx], over the records still to
    visit. *)
Fixpoint find_best (cols : list string) (idx : nat) (group : list row)
    (best_idx : option nat) (best_count : Z) : option nat * Z :=
  match group with
  | [] => (best_idx, best_count)
  | r :: rest =>
      let count := completeness cols r in
      if best_count <? count then find_best cols (S idx) rest (Some idx) count
      else find_best cols (S idx) rest best_idx best_count
  end.

(** Lines 97-100 for one column. *)
Definition fill_col (other : row) (merged : row) (col : string) : row :=
  if bool_decide (col ∈ temp_cols) then merged
  else if is_empty (cell col merged) && negb (is_empty (cell col other))
       then <[col := cell col other]> merged
       else merged.

(** The inner loop of lines 96-100. *)
Definition fill_from (cols : list string) (other : row) (merged : row) : row :=
  foldl (fill_col other) merged cols.

(** The outer loop of lines 93-100. *)
Fixpoint fill_loop (cols : list string) (best_idx : nat) (idx : nat)
    (group : list row) (merged : row) : row :=
  match group with
  | [] => merged
  | r :: rest =>
      if (idx =? best_idx)%nat then fill_loop cols best_idx (S idx) rest merged
      else fill_loop cols best_idx (S idx) rest (fill_from cols r merged)
  end.

(** [merge_group]: [group] holds the records of the group in index
    order, [cols] is [group.columns]. *)
Definition merge_group (cols : list string) (group : list row) : result row :=
  match group with
  | [r] => Ok r
  | _ =>
      match (find_best cols 0 group None (-1)).1 with
      | None => Raise KeyError
      | Some best_idx =>
          match group !! best_idx with
          | None => Raise KeyError
          | Some best => Ok (fill_loop cols best_idx 0 group best)
          end
      end
  end.

(** [df.groupby('dedup_key')]: one group per distinct key, the keys in
    increasing order, the records of a group in table order. *)
Fixpoint insert_group (k : string) (r : row) (gs : list (string * list row))
    : list (string * list row) :=
  match gs with
  | [] => [(k, [r])]
  | (k', rs) :: gs' =>
      if String.eqb k k' then (k', rs ++ [r]) :: gs'
      else if PyStr.ltb k k' then (k, [r]) :: gs
      else (k', rs) :: insert_group k r gs'
  end.

(** Records whose key is null belong to no group ([dropna=True]). *)
Definition group_step (by_ : string) (gs : list (string * list row)) (r : row)
    : list (string * list row) :=
  match cell by_ r with
  | Scalar (PyStr k) => insert_group k r gs
  | _ => gs
  end.

Definition groupby (by_ : string) (df : frame) : list (string * list row) :=
  foldl (group_step by_) [] (rows df).

(** [pd.DataFrame(records)]: the columns are the index of the records,
    and there are none when there is no record. *)
Definition DataFrame (index : list string) (records : list row) : frame :=
  {| columns := match records with [] => [] | _ => index end; rows := records |}.

(** [df.drop(columns=labels)]: a label that is not a column is a
    [KeyError]. *)
Definition drop (labels : list string) (df : frame) : result frame :=
  if forallb (λ c, bool_decide (c ∈ columns df)) labels
  then Ok {| columns := filter (λ c, c ∉ labels) (columns df);
             rows := (λ r, foldr delete r labels) <$> rows df |}
  else Raise KeyError.

(** The script from line 29 to line 124: the deduplicated table. *)
Definition deduplicate (df : frame) : result frame :=
  keyed ← derive_keys df;
  deduplicated ← for_each (λ g, merge_group (columns keyed) g.2) (groupby "dedup_key" keyed);
  drop temp_cols (DataFrame (columns keyed) deduplicated).

(** The key of one record of a table that has a [page_url] column, as
    [derive_keys] computes it in the row of the record. *)
Definition dedup_key (r : row) : result value :=
  description ← get_description r;
  let desc_prefix := fillna "NO_DESC" (str_slice_to 20 (PyStr (normalize description))) in
  with_sep ← obj_add (cell "page_url" r) (PyStr "|||");
  obj_add with_sep desc_prefix.

(** ** The specification's words *)

(** A candidate value qualifies: a string whose trimmed length is at
    least 3. *)
Definition qualifies (v : value) : bool :=
  match v with
  | Scalar (PyStr s) => (3 <=? String.length (PyStr.strip s))%nat
  | _ => false
  end.

(** The first qualifying value among the fields, in their order; a field
    the record lacks is skipped. *)
Fixpoint first_qualifying (fields : list string) (r : row) : option string :=
  match fields with
  | [] => None
  | field :: rest =>
      match r !! field with
      | Some (Scalar (PyStr s)) =>
          if qualifies (PyStr s) then Some s else first_qualifying rest r
      | _ => first_qualifying rest r
      end
  end.

(** No candidate field of the record holds a value without truth value. *)
Definition candidates_testable (r : row) : Prop :=
  ∀ field v, field ∈ candidate_fields → r !! field = Some v → is_Some (truth v).

(** The first 20 characters of the normalized description. *)
Definition desc_prefix_of (description : string) : string :=
  PyStr.slice_to 20 (normalize description).

(** The original (non-derived) fields among the columns. *)
Definition original_fields (cols : list string) : list string :=
  filter (λ col, col ∉ temp_cols) cols.

(** Copy the other record's value of one field only when the working
    copy's value is empty and the other record's value is not. *)
Definition fill_field (other : row) (working : row) (field : string) : row :=
  if is_empty (cell field working) && negb (is_empty (cell field other))
  then <[field := cell field other]> working
  else working.

(** One other record, every original field. *)
Definition fill_record (fields : list string) (working other : row) : row :=
  foldl (fill_field other) working fields.

(** The merged record of the specification: the base filled from the
    other records in group order. *)
Definition merged_record (cols : list string) (base : row) (others : list row) : row :=
  foldl (fill_record (original_fields cols)) base others.

(** The record at position [b] is the base: its count is the highest of
    the group and no earlier record reaches it. *)
Definition is_base (cols : list string) (group : list row) (b : nat) (base : row) : Prop :=
  group !! b = Some base
  ∧ (∀ j r, group !! j = Some r → completeness cols r ≤ completeness cols base)
  ∧ (∀ j r, (j < b)%nat → group !! j = Some r →
            completeness cols r < completeness cols base).

(** The records of a table without their derived fields. *)
Definition strip_temp (r : row) : row := foldr delete r temp_cols.

(** The [dedup_key] column the script computes for a table. *)
Definition frame_keys (df : frame) : result (list value) :=
  keyed ← derive_keys df; get_col "dedup_key" keyed.

(** ** Sample records *)

Definition rec_padded : row :=
  {[ "page_url" := Scalar (PyStr "http://a.com/p1");
     "product_summary" := Scalar (PyStr "  Blue Widget ") ]}.

Definition rec_array : row :=
  {[ "page_url" := Scalar (PyStr "http://a.com/p1");
     "product_summary" := NdArray [PyStr "Blue"; PyStr "Widget"];
     "product_title" := Scalar (PyStr "Blue Widget") ]}.

Definition rec_empty_array : row :=
  {[ "page_url" := Scalar (PyStr "http://a.com/p1");
     "product_summary" := NdArray [];
     "product_title" := Scalar (PyStr "Blue Widget") ]}.

Definition rec_no_desc : row :=
  {[ "page_url" := Scalar (PyStr "http://a.com/p1");
     "description" := Scalar (PyStr EmptyString);
     "brand" := Scalar (PyStr EmptyString) ]}.

Definition rec_bar_in_url : row :=
  {[ "page_url" := Scalar (PyStr "http://a.com/p|||x");
     "product_name" := Scalar (PyStr "yz") ;
     "product_title" := Scalar (PyStr "widget") ]}.

Definition rec_bar_in_desc : row :=
  {[ "page_url" := Scalar (PyStr "http://a.com/p");
     "product_title" := Scalar (PyStr "x|||widget") ]}.

(** Scenario 2 of the specification and a third record. *)
Definition rec_acme : row :=
  {[ "page_url" := Scalar (PyStr "http://a.com/p1");
     "product_name" := Scalar (PyStr EmptyString);
     "brand" := Scalar (PyStr "Acme");
     "price" := Scalar NaN ]}.

Definition rec_blank : row :=
  {[ "page_url" := Scalar (PyStr "http://a.com/p1");
     "product_name" := Scalar (PyStr EmptyString);
     "brand" := Scalar (PyStr EmptyString);
     "price" := Scalar (PyNum 0) ]}.

Definition rec_priced : row :=
  {[ "page_url" := Scalar (PyStr "http://a.com/p1");
     "product_name" := Scalar (PyStr "Widget");
     "brand" := Scalar (PyStr "Other");
     "price" := Scalar (PyNum 7) ]}.

Definition cols_brand : list string := ["page_url"; "product_name"; "brand"; "price"].

(** ** Sample tables *)

(** Record B of scenario 2 as a table. *)
Definition df_no_desc : frame :=
  Frame ["page_url"; "description"; "brand"] [rec_no_desc].

(** Two records with different URLs whose keys are the same text. *)
Definition df_collision : frame :=
  Frame ["page_url"; "product_name"; "product_title"]
    [rec_bar_in_url; rec_bar_in_desc].

(** A table whose second record has a null URL. *)
Definition df_null_url : frame :=
  Frame ["page_url"; "product_name"]
    [ {[ "page_url" := Scalar (PyStr "http://a.com/p1");
         "product_name" := Scalar (PyStr "Blue Widget") ]};
      {[ "page_url" := Scalar PyNone;
         "product_name" := Scalar (PyStr "Red Gadget") ]} ].

(** A table in which no record has a URL. *)
Definition df_all_null_url : frame :=
  Frame ["page_url"; "product_name"]
    [ {[ "page_url" := Scalar PyNone;
         "product_name" := Scalar (PyStr "Blue Widget") ]};
      {[ "page_url" := Scalar NaN;
         "product_name" := Scalar (PyStr "Red Gadget") ]} ].

(** Two records of one key that fill each other, and a record of
    another key; the output of the transform on them. *)
Definition df_two_groups : frame :=
  Frame ["page_url"; "product_name"; "brand"; "price"]
    [ {[ "page_url" := Scalar (PyStr "http://a.com/p1");
         "product_name" := Scalar (PyStr "Blue Widget");
         "brand" := Scalar NaN;
         "price" := Scalar (PyNum 5) ]};
      {[ "page_url" := Scalar (PyStr "http://b.com/p2");
         "product_name" := Scalar (PyStr "Red Gadget");
         "brand" := Scalar (PyStr "Other");
         "price" := Scalar (PyNum 7) ]};
      {[ "page_url" := Scalar (PyStr "http://a.com/p1");
         "product_name" := Scalar (PyStr "blue   widget");
         "brand" := Scalar (PyStr "Acme");
         "price" := Scalar NaN ]} ].

Definition df_two_groups_once : frame :=
  Frame ["page_url"; "product_name"; "brand"; "price"]
    [ {[ "page_url" := Scalar (PyStr "http://a.com/p1");
         "product_name" := Scalar (PyStr "Blue Widget");
         "brand" := Scalar (PyStr "Acme");
         "price" := Scalar (PyNum 5) ]};
      {[ "page_url" := Scalar (PyStr "http://b.com/p2");
         "product_name" := Scalar (PyStr "Red Gadget");
         "brand" := Scalar (PyStr "Other");
         "price" := Scalar (PyNum 7) ]} ].

(** A table without URL column. *)
Definition df_no_url : frame :=
  Frame ["product_name"] [ {[ "product_name" := Scalar (PyStr "Blue Widget") ]} ].

(** A table with an input column named [description]. *)
Definition df_description : frame :=
  Frame ["page_url"; "description"]
    [ {[ "page_url" := Scalar (PyStr "http://a.com/p1");
         "description" := Scalar (PyStr "Blue Widget") ]} ].

(** Two records of one key whose merge changes key, and a record of
    that other key. *)
Definition rec_short_summary : row :=
  {[ "page_url" := Scalar (PyStr "http://a.com/p1");
     "product_summary" := Scalar (PyStr "ab");
     "product_title" := Scalar NaN;
     "product_name" := Scalar (PyStr "Blue widget") ]}.

Definition rec_two_texts : row :=
  {[ "page_url" := Scalar (PyStr "http://a.com/p1");
     "product_summary" := Scalar (PyStr "Blue  Widget");
     "product_title" := Scalar (PyStr "Red gadget");
     "product_name" := Scalar NaN ]}.

Definition rec_red : row :=
  {[ "page_url" := Scalar (PyStr "http://a.com/p1");
     "product_summary" := Scalar (PyStr "Red gadget");
     "product_title" := Scalar NaN;
     "product_name" := Scalar NaN ]}.

Definition df_rekeyed : frame :=
  Frame ["page_url"; "product_summary"; "product_title"; "product_name"]
    [rec_short_summary; rec_two_texts; rec_red].

Definition rec_merged : row :=
  {[ "page_url" := Scalar (PyStr "http://a.com/p1");
     "product_summary" := Scalar (PyStr "ab");
     "product_title" := Scalar (PyStr "Red gadget");
     "product_name" := Scalar (PyStr "Blue widget") ]}.

Definition df_rekeyed_once : frame :=
  Frame ["page_url"; "product_summary"; "product_title"; "product_name"]
    [rec_merged; rec_red].

Definition df_rekeyed_twice : frame :=
  Frame ["page_url"; "product_summary"; "product_title"; "product_name"]
    [rec_merged].

Definition df_three_urls : frame :=
  Frame ["page_url"; "product_name"]
    [ {[ "page_url" := Scalar (PyStr "http://c.com/p3");
         "product_name" := Scalar (PyStr "Green Thing") ]};
      {[ "page_url" := Scalar (PyStr "http://a.com/p1");
         "product_name" := Scalar (PyStr "Blue Widget") ]};
      {[ "page_url" := Scalar (PyStr "http://b.com/p2");
         "product_name" := Scalar NaN ]} ].

(** A table whose second record has a number as URL. *)
Definition df_numeric_url : frame :=
  Frame ["page_url"; "product_name"]
    [ {[ "page_url" := Scalar (PyStr "http://a.com/p1");
         "product_name" := Scalar (PyStr "Blue Widget") ]};
      {[ "page_url" := Scalar (PyNum 404);
         "product_name" := Scalar (PyStr "Red Gadget") ]} ].

(** A URL that is neither null nor a string. *)
Definition url_not_text (v : value) : bool :=
  match v with
  | Scalar PyNone | Scalar NaN | Scalar (PyStr _) => false
  | _ => true
  end.

(** ** Counts the script reports, and notions for its properties *)

(** The strings of a column of strings and nulls. *)
Definition str_values (vals : list value) : list string :=
  omap (λ v, match v with Scalar (PyStr s) => Some s | _ => None end) vals.

(** [Series.nunique()] on a column of strings and nulls: the number of
    distinct strings, nulls left out (lines 52, 53 and 136). *)
Definition nunique (vals : list value) : nat :=
  length (remove_dups (str_values vals)).

(** Line 53: [len(df) - df['dedup_key'].nunique()]. *)
Definition potential_duplicates (df : frame) (keys : list value) : Z :=
  Z.of_nat (length (rows df)) - Z.of_nat (nunique keys).

(** Line 132: [len(df) - len(result)]. *)
Definition duplicates_removed (df result : frame) : Z :=
  Z.of_nat (length (rows df)) - Z.of_nat (length (rows result)).

(** [explore_data.py], line 28: [df.isnull()] on one cell.  A list or
    an array held in a cell is a value, hence not null. *)
Definition isnull_cell (v : value) : bool :=
  match v with
  | Scalar x => isna_scalar x
  | _ => false
  end.

(** [explore_data.py], line 28: [df.isnull().sum()] for one column. *)
Definition missing_count (c : string) (df : frame) : nat :=
  length (filter (λ r, isnull_cell (cell c r) = true) (rows df)).

(** The number of records whose field [c] the merger takes as empty. *)
Definition empty_count (c : string) (df : frame) : nat :=
  length (filter (λ r, is_empty (cell c r) = true) (rows df)).

(** The order of the group keys. *)
Definition key_lt (k1 k2 : string) : Prop := PyStr.ltb k1 k2 = true.

(** The record holds the string [k] in column [by_]. *)
Definition has_key (by_ k : string) (r : row) : bool :=
  match cell by_ r with
  | Scalar (PyStr k') => String.eqb k k'
  | _ => false
  end.

(** The value of column [c] in the first record that is not empty
    there. *)
Fixpoint first_nonempty (c : string) (rs : list row) : option value :=
  match rs with
  | [] => None
  | r :: rest =>
      if is_empty (cell c r) then first_nonempty c rest else Some (cell c r)
  end.

(** * Facts about Python strings *)

Section PyStrFacts.
Import PyStr.

Lemma isspace_lower_char c : isspace (lower_char c) = isspace c.
Proof. by destruct c as [[] [] [] [] [] [] [] []]. Qed.

Lemma lower_char_idem c : lower_char (lower_char c) = lower_char c.
Proof. by destruct c as [[] [] [] [] [] [] [] []]. Qed.

Lemma lower_idem s : lower (lower s) = lower s.
Proof. induction s as [|c s IH]; simpl; [done|]. by rewrite lower_char_idem, IH. Qed.

Lemma lower_app s t : lower (s +:+ t) = lower s +:+ lower t.
Proof. induction s as [|c s IH]; simpl; [done|]. by rewrite IH. Qed.

Lemma lstrip_no_space s : starts_space (lstrip s) = false.
Proof.
  induction s as [|c s IH]; simpl; [done|].
  destruct (isspace c) eqn:E; [done|]. by simpl; rewrite E.
Qed.

Lemma rstrip_head c s :
  rstrip (String c s) = EmptyString ∨ ∃ t, rstrip (String c s) = String c t.
Proof.
  simpl. destruct (rstrip s); [destruct (isspace c)|]; eauto.
Qed.

Lemma rstrip_no_space s : starts_space s = false → starts_space (rstrip s) = false.
Proof.
  destruct s as [|c s]; [done|]. intros H.
  destruct (rstrip_head c s) as [->|[t ->]]; done.
Qed.

Lemma lstrip_id s : starts_space s = false → lstrip s = s.
Proof. destruct s as [|c s]; simpl; [done|]. by intros ->. Qed.

Lemma rstrip_idem s : rstrip (rstrip s) = rstrip s.
Proof.
  induction s as [|c s IH]; simpl; [done|].
  destruct (rstrip s) as [|c' t] eqn:E.
  - destruct (isspace c) eqn:Ec; simpl; [done|]. by rewrite Ec.
  - change (rstrip (String c (String c' t))) with
      (match rstrip (String c' t) with
       | EmptyString => if isspace c then EmptyString else String c EmptyString
       | u => String c u end).
    by rewrite IH.
Qed.

Lemma strip_idem s : strip (strip s) = strip s.
Proof.
  unfold strip.
  rewrite (lstrip_id (rstrip (lstrip s))), rstrip_idem; [done|].
  apply rstrip_no_space, lstrip_no_space.
Qed.

Lemma app_cons c s t : String c s +:+ t = String c (s +:+ t).
Proof. done. Qed.

Lemma app_assoc_str s t u : (s +:+ t) +:+ u = s +:+ t +:+ u.
Proof. induction s as [|c s IH]; [done|]. by rewrite !app_cons, IH. Qed.

Lemma split_lstrip s : split (lstrip s) = split s.
Proof.
  induction s as [|c s IH]; [done|].
  cbn [lstrip]. destruct (isspace c) eqn:E; [|done].
  by cbn [split]; rewrite E.
Qed.

Lemma split_cons c s :
  split (String c s) =
    if isspace c then split s
    else if starts_space s then String c EmptyString :: split s
    else match split s with
         | w :: ws => String c w :: ws
         | [] => [String c EmptyString]
         end.
Proof.
  cbn [split]. destruct (isspace c); [done|].
  destruct s as [|c' s]; [done|]. done.
Qed.

Lemma split_rstrip s : split (rstrip s) = split s.
Proof.
  induction s as [|c s IH]; [done|].
  rewrite (split_cons c s). cbn [rstrip].
  destruct (rstrip s) as [|c' t] eqn:E.
  - rewrite <-IH. destruct (isspace c) eqn:Ec; [done|].
    cbn. rewrite Ec. by destruct (starts_space s).
  - rewrite split_cons, <-IH.
    destruct s as [|c'' s]; [done|].
    destruct (rstrip_head c'' s) as [E'|[t' E']]; rewrite E' in E; [done|].
    by simplify_eq.
Qed.

Lemma split_strip s : split (strip s) = split s.
Proof. unfold strip. by rewrite split_rstrip, split_lstrip. Qed.

Lemma starts_space_lower s : starts_space (lower s) = starts_space s.
Proof. destruct s; simpl; [done|]. apply isspace_lower_char. Qed.

Lemma split_lower s : split (lower s) = lower <$> split s.
Proof.
  induction s as [|c s IH]; [done|].
  cbn [lower]. rewrite !split_cons, isspace_lower_char, starts_space_lower, IH.
  destruct (isspace c); [done|].
  destruct (starts_space s); [done|].
  by destruct (split s).
Qed.

Lemma split_words s : Forall (λ w, is_word w = true) (split s).
Proof.
  induction s as [|c s IH]; [by constructor|].
  rewrite split_cons.
  destruct (isspace c) eqn:Ec; [done|].
  assert (is_word (String c EmptyString) = true) as Hc
    by (unfold is_word; simpl; by rewrite Ec).
  destruct (starts_space s); [by constructor|].
  destruct (split s) as [|w ws]; [by constructor; [|constructor]|].
  inversion_clear IH as [|?? Hw Hws]. constructor; [|done].
  unfold is_word in *. simpl. rewrite Ec. simpl.
  by apply andb_true_iff in Hw as [_ ->].
Qed.

Lemma split_word_app w s :
  is_word w = true →
  split (w +:+ String " " s) = w :: split s.
Proof.
  unfold is_word. intros [Hne Hw]%andb_true_iff.
  induction w as [|c w IH]; [done|].
  simpl in Hw. apply andb_true_iff in Hw as [Hc%negb_true_iff Hw].
  change (String c w +:+ String " " s) with (String c (w +:+ String " " s)).
  rewrite split_cons, Hc.
  destruct w as [|c' w]; [done|].
  rewrite IH by done.
  simpl in Hw. apply andb_true_iff in Hw as [Hc'%negb_true_iff _].
  change (String c' w +:+ String " " s) with (String c' (w +:+ String " " s)).
  cbn [starts_space]. by rewrite Hc'.
Qed.

Lemma split_word w : is_word w = true → split w = [w].
Proof.
  unfold is_word. intros [Hne Hw]%andb_true_iff.
  induction w as [|c w IH]; [done|].
  simpl in Hw. apply andb_true_iff in Hw as [Hc%negb_true_iff Hw].
  rewrite split_cons, Hc.
  destruct w as [|c' w]; [done|].
  rewrite IH by done.
  simpl in Hw. apply andb_true_iff in Hw as [Hc'%negb_true_iff _].
  cbn. by rewrite Hc'.
Qed.

Lemma split_join ws :
  Forall (λ w, is_word w = true) ws → split (join " " ws) = ws.
Proof.
  unfold join. induction 1 as [|w ws Hw Hws IH]; [done|].
  destruct ws as [|w' ws]; [by apply split_word|].
  change (String.concat " " (w :: w' :: ws))
    with (w +:+ String " " (String.concat " " (w' :: ws))).
  by rewrite split_word_app, IH.
Qed.

Lemma lower_join ws : lower (join " " ws) = join " " (lower <$> ws).
Proof.
  unfold join. induction ws as [|w ws IH]; [done|].
  destruct ws as [|w' ws]; [done|].
  change (String.concat " " (w :: w' :: ws))
    with (w +:+ String " " (String.concat " " (w' :: ws))).
  rewrite lower_app. cbn [lower]. rewrite IH. done.
Qed.

End PyStrFacts.

(** Normalizing a normalized text changes nothing. *)
Lemma normalize_idem text : normalize (normalize text) = normalize text.
Proof.
  unfold normalize at 2 3. destruct (String.eqb text EmptyString) eqn:E; [done|].
  set (N := PyStr.join " " (PyStr.split (PyStr.strip (PyStr.lower text)))).
  unfold normalize. destruct (String.eqb N EmptyString) eqn:EN.
  { by apply String.eqb_eq in EN. }
  rewrite split_strip, split_lower. subst N.
  rewrite split_join by apply split_words.
  by rewrite split_strip, split_lower, <-list_fmap_compose,
    (list_fmap_ext (PyStr.lower ∘ PyStr.lower) PyStr.lower) by (intros; apply lower_idem).
Qed.

(** Scenario 1, computed: both descriptions normalize to the same text,
    and whitespace of every kind separates words. *)
Example normalize_scenario :
  normalize "Blue Widget" = "blue widget"
  ∧ normalize "blue   widget" = "blue widget"
  ∧ normalize (String "009" " Blue" +:+ String "010" "WIDGET ") = "blue widget"
  ∧ normalize "   " = EmptyString
  ∧ PyStr.slice_to 20 (normalize "A description longer than twenty")
    = "a description longer".
Proof. by vm_compute. Qed.

(** * Description extraction *)

Lemma get_description_from_testable fields r :
  (∀ field v, field ∈ fields → r !! field = Some v → is_Some (truth v)) →
  get_description_from fields r
  = Ok (default EmptyString (PyStr.strip <$> first_qualifying fields r)).
Proof.
  induction fields as [|field rest IH]; intros Ht; [done|].
  assert (get_description_from rest r
          = Ok (default EmptyString (PyStr.strip <$> first_qualifying rest r))) as IH'.
  { apply IH. intros f v Hf. apply Ht. by right. }
  cbn [get_description_from first_qualifying].
  destruct (r !! field) as [v|] eqn:Hv; [|done].
  destruct (Ht field v) as [b Hb]; [by left|done|]. rewrite Hb.
  destruct v as [[| |b'|z|s]|xs|xs]; destruct b; try done.
  - cbn [qualifies]. by destruct (3 <=? _)%nat.
  - cbn [qualifies]. destruct (3 <=? _)%nat eqn:E; [|done].
    simpl in Hb. destruct s; [done|]. by destruct (PyStr.strip _).
Qed.

Lemma get_description_from_shape fields r d :
  get_description_from fields r = Ok d →
  d = EmptyString ∨ ∃ field s, field ∈ fields ∧ r !! field = Some (Scalar (PyStr s))
                      ∧ d = PyStr.strip s ∧ (3 ≤ String.length d)%nat.
Proof.
  induction fields as [|field rest IH]; cbn [get_description_from].
  { intros [= <-]. by left. }
  assert (get_description_from rest r = Ok d →
    d = EmptyString ∨ ∃ field0 s, field0 ∈ field :: rest ∧ r !! field0 = Some (Scalar (PyStr s))
                      ∧ d = PyStr.strip s ∧ (3 ≤ String.length d)%nat) as IH'.
  { intros [->|(f & s & ? & ?)]%IH; [by left|right].
    exists f, s. split; [by right|done]. }
  destruct (r !! field) as [v|] eqn:Hv; [|done].
  destruct (truth v) as [[]|]; [|done..].
  destruct v as [[| |b'|z|s]|xs|xs]; try done.
  destruct (3 <=? _)%nat eqn:E; [|done].
  intros [= <-]. right. exists field, s.
  split; [by left|]. split; [done|]. split; [done|]. by apply Nat.leb_le.
Qed.

(** C8 (as stated, refuted): the value returned is not the first
    qualifying candidate value itself.  For a padded summary the
    trimmed text is returned, and a candidate holding an array of two
    elements makes the extraction raise although a later candidate
    qualifies. *)
Lemma get_description_not_raw_value :
  first_qualifying candidate_fields rec_padded = Some "  Blue Widget "
  ∧ get_description rec_padded = Ok "Blue Widget"
  ∧ get_description rec_padded
    ≠ Ok (default EmptyString (first_qualifying candidate_fields rec_padded))
  ∧ first_qualifying candidate_fields rec_array = Some "Blue Widget"
  ∧ get_description rec_array = Raise ValueError.
Proof. by vm_compute. Qed.

(** C8 (amended): when every candidate value can be tested for truth,
    description extraction goes through the candidate fields in the
    priority order summary, description, title, name, and returns the
    trimmed form of the first value that is a string of trimmed length at
    least 3, or the empty string when no candidate qualifies; a field the
    record lacks is skipped. *)
Theorem get_description_first_qualifying (r : row) :
  candidates_testable r →
  candidate_fields
  = ["product_summary"; "description"; "product_title"; "product_name"]
  ∧ get_description r
    = Ok (default EmptyString (PyStr.strip <$> first_qualifying candidate_fields r)).
Proof.
  intros Ht. split; [done|]. by apply get_description_from_testable.
Qed.

Lemma get_description_first_qualifying_witness :
  candidate_fields
  = ["product_summary"; "description"; "product_title"; "product_name"]
  ∧ get_description rec_bar_in_url
    = Ok (default EmptyString (PyStr.strip <$> first_qualifying candidate_fields rec_bar_in_url)).
Proof.
  apply (get_description_first_qualifying rec_bar_in_url).
  intros field v Hf Hv.
  repeat (apply elem_of_cons in Hf as [->|Hf]; [vm_compute in Hv; by simplify_eq|]).
  by apply elem_of_nil in Hf.
Defined.

(** C10: an extracted description is the empty string or a trimmed
    string of length at least 3, namely a candidate value with its
    leading and trailing whitespace removed; and normalizing its
    normalized form changes nothing. *)
Theorem get_description_trimmed (r : row) (d : string) :
  get_description r = Ok d →
  (d = EmptyString ∨ (PyStr.strip d = d ∧ (3 ≤ String.length d)%nat
             ∧ ∃ field s, field ∈ candidate_fields
                          ∧ r !! field = Some (Scalar (PyStr s))
                          ∧ d = PyStr.strip s))
  ∧ normalize (normalize d) = normalize d.
Proof.
  intros Hd. split; [|apply normalize_idem].
  apply get_description_from_shape in Hd as [->|(field & s & Hf & Hs & -> & Hlen)];
    [by left|right].
  split; [apply strip_idem|]. split; [done|]. by exists field, s.
Qed.

Lemma get_description_trimmed_witness :
  ("Blue Widget" = EmptyString ∨ (PyStr.strip "Blue Widget" = "Blue Widget"
     ∧ (3 ≤ String.length "Blue Widget")%nat
     ∧ ∃ field s, field ∈ candidate_fields
                  ∧ rec_padded !! field = Some (Scalar (PyStr s))
                  ∧ "Blue Widget" = PyStr.strip s))
  ∧ normalize (normalize "Blue Widget") = normalize "Blue Widget".
Proof. apply (get_description_trimmed rec_padded "Blue Widget"). reflexivity. Defined.

(** * Key derivation *)

(** The key of a record with a string URL: URL, delimiter, prefix. *)
Lemma dedup_key_of_string_url (r : row) (u d : string) :
  r !! "page_url" = Some (Scalar (PyStr u)) →
  get_description r = Ok d →
  dedup_key r = Ok (Scalar (PyStr (u +:+ "|||" +:+ desc_prefix_of d))).
Proof.
  intros Hu Hd. unfold dedup_key, cell. rewrite Hd, Hu. cbn.
  by rewrite app_assoc_str.
Qed.

(** The sentinel is never substituted: [.str[:20]] of a string is a
    string, which [fillna] leaves alone. *)
Lemma fillna_slice_of_string (x s : string) (n : nat) :
  fillna x (str_slice_to n (Scalar (PyStr s))) = Scalar (PyStr (PyStr.slice_to n s)).
Proof. done. Qed.

(** C1 (the code at the failing input): a record with URL
    [http://a.com/p1] and no usable description has the empty normalized
    description and the key [http://a.com/p1|||], without the sentinel
    [NO_DESC] the claim promises. *)
Theorem dedup_key_without_sentinel :
  (d ← get_description rec_no_desc; Ok (normalize d)) = Ok EmptyString
  ∧ dedup_key rec_no_desc = Ok (Scalar (PyStr "http://a.com/p1|||"))
  ∧ dedup_key rec_no_desc ≠ Ok (Scalar (PyStr "http://a.com/p1|||NO_DESC"))
  ∧ frame_keys df_no_desc = Ok [Scalar (PyStr "http://a.com/p1|||")].
Proof. by vm_compute. Qed.

Section Delimiter.
Import PyStr.

Lemma app_delimiter_inj (u1 u2 p1 p2 : string) :
  has_char "|" u1 = false → has_char "|" u2 = false →
  u1 +:+ "|||" +:+ p1 = u2 +:+ "|||" +:+ p2 →
  u1 = u2 ∧ p1 = p2.
Proof.
  revert u2. induction u1 as [|c u1 IH]; intros [|c' u2] H1 H2 Heq.
  - rewrite !app_cons in Heq. by simplify_eq/=.
  - rewrite !app_cons in Heq. injection Heq as <- _.
    cbn [has_char] in H2. by rewrite Ascii.eqb_refl in H2.
  - rewrite !app_cons in Heq. injection Heq as -> _.
    cbn [has_char] in H1. by rewrite Ascii.eqb_refl in H1.
  - rewrite !app_cons in Heq. injection Heq as <- Heq.
    cbn [has_char] in H1, H2. destruct (Ascii.eqb "|" c) eqn:E; [done|].
    destruct (IH u2) as [-> ->]; done.
Qed.

End Delimiter.

(** C9 (as stated, refuted): two records with different URLs and
    different prefixes that map to the same key. *)
Lemma dedup_key_collision :
  dedup_key rec_bar_in_url = dedup_key rec_bar_in_desc
  ∧ dedup_key rec_bar_in_url = Ok (Scalar (PyStr "http://a.com/p|||x|||widget"))
  ∧ rec_bar_in_url !! "page_url" ≠ rec_bar_in_desc !! "page_url"
  ∧ (d ← get_description rec_bar_in_url; Ok (desc_prefix_of d)) = Ok "widget"
  ∧ (d ← get_description rec_bar_in_desc; Ok (desc_prefix_of d)) = Ok "x|||widget"
  ∧ frame_keys df_collision
    = Ok [Scalar (PyStr "http://a.com/p|||x|||widget");
          Scalar (PyStr "http://a.com/p|||x|||widget")].
Proof. by vm_compute. Qed.

(** C9 (amended): every record with a string URL and an extracted
    description has a key; records with identical URL and identical
    20-character prefix of the normalized description have the same key,
    and two records whose URLs hold no [|] character have the same key
    only if their URLs and their prefixes are identical. *)
Theorem dedup_key_total_and_exact (r1 r2 : row) (u1 u2 d1 d2 : string) :
  r1 !! "page_url" = Some (Scalar (PyStr u1)) →
  r2 !! "page_url" = Some (Scalar (PyStr u2)) →
  get_description r1 = Ok d1 →
  get_description r2 = Ok d2 →
  ∃ k1 k2,
    dedup_key r1 = Ok (Scalar (PyStr k1)) ∧ dedup_key r2 = Ok (Scalar (PyStr k2))
    ∧ (u1 = u2 ∧ desc_prefix_of d1 = desc_prefix_of d2 → k1 = k2)
    ∧ (PyStr.has_char "|" u1 = false → PyStr.has_char "|" u2 = false →
       k1 = k2 → u1 = u2 ∧ desc_prefix_of d1 = desc_prefix_of d2).
Proof.
  intros Hu1 Hu2 Hd1 Hd2.
  eexists _, _. split; [by apply dedup_key_of_string_url|].
  split; [by apply dedup_key_of_string_url|].
  split; [by intros [-> ->]|].
  intros. by apply app_delimiter_inj.
Qed.

Lemma dedup_key_total_and_exact_witness :
  ∃ k1 k2,
    dedup_key rec_padded = Ok (Scalar (PyStr k1))
    ∧ dedup_key rec_no_desc = Ok (Scalar (PyStr k2))
    ∧ ("http://a.com/p1" = "http://a.com/p1"
       ∧ desc_prefix_of "Blue Widget" = desc_prefix_of EmptyString → k1 = k2)
    ∧ (PyStr.has_char "|" "http://a.com/p1" = false →
       PyStr.has_char "|" "http://a.com/p1" = false →
       k1 = k2 →
       "http://a.com/p1" = "http://a.com/p1"
       ∧ desc_prefix_of "Blue Widget" = desc_prefix_of EmptyString).
Proof.
  apply (dedup_key_total_and_exact rec_padded rec_no_desc); reflexivity.
Defined.

(** * The emptiness predicate *)

(** X4: What [is_empty] answers, value by value. *)
Lemma is_empty_true_iff (v : value) :
  is_empty v = true ↔
  match v with
  | Scalar PyNone | Scalar NaN => True
  | Scalar (PyStr s) => PyStr.strip s = EmptyString
  | Scalar _ => False
  | PyList xs | NdArray xs => xs = [] ∨ ∃ x, xs = [x] ∧ isna_scalar x = true
  end.
Proof.
  destruct v as [[| |b|z|s]|xs|xs]; try done.
  - unfold is_empty. cbn. destruct (String.eqb _ EmptyString) eqn:E.
    + by apply String.eqb_eq in E.
    + by apply String.eqb_neq in E.
  - destruct xs as [|x [|y xs]].
    + split; [by left|done].
    + unfold is_empty. cbn. split.
      * destruct (isna_scalar x) eqn:E; [|done]. right. by exists x.
      * intros [|(? & [= <-] & ->)]; done.
    + split; [done|]. by intros [|(? & ? & ?)].
  - destruct xs as [|x [|y xs]].
    + split; [by left|done].
    + unfold is_empty. cbn. split.
      * destruct (isna_scalar x) eqn:E; [|done]. right. by exists x.
      * intros [|(? & [= <-] & ->)]; done.
    + split; [done|]. by intros [|(? & ? & ?)].
Qed.

(** C6 (the code at the failing input): a list or an array of one
    element that is NaN or None is classified empty although it is a
    sequence of one element; zero, false and a sequence of two nulls are
    classified non-empty as the claim says. *)
Theorem is_empty_singleton_null :
  is_empty (PyList [NaN]) = true
  ∧ is_empty (NdArray [PyNone]) = true
  ∧ is_empty (PyList [PyStr "x"]) = false
  ∧ is_empty (PyList [NaN; NaN]) = false
  ∧ is_empty (Scalar (PyNum 0)) = false
  ∧ is_empty (Scalar (PyBool false)) = false.
Proof. by vm_compute. Qed.

(** * Merging a group *)

Section Merge.
Context (cols : list string).

Lemma completeness_nonneg (r : row) : 0 ≤ completeness cols r.
Proof. unfold completeness. lia. Qed.

(** The loop of [find_best] either keeps the best record it started
    with, or ends on the first record of the highest count. *)
Lemma find_best_inv (group : list row) (idx : nat) (bi : option nat) (bc : Z) :
  (find_best cols idx group bi bc = (bi, bc)
   ∧ ∀ j r, group !! j = Some r → completeness cols r ≤ bc)
  ∨ ∃ j base,
      is_base cols group j base
      ∧ find_best cols idx group bi bc = (Some (idx + j)%nat, completeness cols base)
      ∧ bc < completeness cols base.
Proof.
  revert idx bi bc. induction group as [|r rest IH]; intros idx bi bc.
  { left. split; [done|]. intros j r. by rewrite lookup_nil. }
  cbn [find_best]. destruct (bc <? completeness cols r) eqn:E.
  - apply Z.ltb_lt in E. right.
    destruct (IH (S idx) (Some idx) (completeness cols r))
      as [[-> Hle]|(j & base & (Hj & Hmax & Hfirst) & -> & Hlt)].
    + exists 0%nat, r. rewrite Nat.add_0_r. split; [|done].
      split; [done|]. split; [|lia].
      intros [|j] r'; cbn; [by intros [= ->]|]. apply Hle.
    + exists (S j), base. split; [|split; [f_equal; f_equal; lia|lia]].
      split; [done|]. split.
      * intros [|j'] r'; cbn; [intros [= ->]; lia|]. apply Hmax.
      * intros [|j'] r' ?; cbn; [intros [= ->]; lia|]. apply Hfirst. lia.
  - apply Z.ltb_ge in E.
    destruct (IH (S idx) bi bc)
      as [[-> Hle]|(j & base & (Hj & Hmax & Hfirst) & -> & Hlt)].
    + left. split; [done|].
      intros [|j] r'; cbn; [by intros [= ->]|]. apply Hle.
    + right. exists (S j), base. split; [|split; [f_equal; f_equal; lia|lia]].
      split; [done|]. split.
      * intros [|j'] r'; cbn; [intros [= ->]; lia|]. apply Hmax.
      * intros [|j'] r' ?; cbn; [intros [= ->]; lia|]. apply Hfirst. lia.
Qed.

(** Past the base, the filling loop visits every record. *)
Lemma fill_loop_past (b idx : nat) (group : list row) (merged : row) :
  (b < idx)%nat →
  fill_loop cols b idx group merged = foldl (λ m r, fill_from cols r m) merged group.
Proof.
  revert idx merged. induction group as [|r rest IH]; intros idx merged Hlt; [done|].
  cbn [fill_loop foldl].
  destruct (Nat.eqb_spec idx b); [lia|]. apply IH. lia.
Qed.

(** The filling loop visits every record but the base, in group order. *)
Lemma fill_loop_others (b idx : nat) (group : list row) (merged : row) :
  (idx ≤ b)%nat →
  fill_loop cols b idx group merged
  = foldl (λ m r, fill_from cols r m) merged (delete (b - idx)%nat group).
Proof.
  revert idx merged. induction group as [|r rest IH]; intros idx merged Hle; [done|].
  cbn [fill_loop]. destruct (Nat.eqb_spec idx b) as [->|Hne].
  - rewrite Nat.sub_diag. cbn. apply fill_loop_past. lia.
  - replace (b - idx)%nat with (S (b - S idx)) by lia. cbn. apply IH. lia.
Qed.

(** The inner loop skips the derived columns: it is a loop over the
    original fields. *)
Lemma fill_from_original (cs : list string) (other merged : row) :
  foldl (fill_col other) merged cs
  = fill_record (filter (λ col, col ∉ temp_cols) cs) merged other.
Proof.
  unfold fill_record. revert merged.
  induction cs as [|c cs IH]; intros merged; [done|].
  cbn [foldl]. rewrite filter_cons. unfold fill_col at 2.
  destruct (decide (c ∉ temp_cols)) as [Hc|Hc].
  - rewrite bool_decide_eq_false_2 by done. cbn [foldl]. apply IH.
  - rewrite bool_decide_eq_true_2 by (by apply dec_stable). apply IH.
Qed.

Lemma foldl_ext_fill (working : row) (others : list row) :
  foldl (λ m r, fill_from cols r m) working others = merged_record cols working others.
Proof.
  unfold merged_record. revert working.
  induction others as [|r others IH]; intros working; [done|].
  cbn [foldl]. rewrite IH. f_equal. apply fill_from_original.
Qed.

(** [merge_group] on a group of two or more records: the base is the
    first record of the highest count, the result is the base filled
    from the others in order. *)
Lemma merge_group_spec (group : list row) :
  (1 < length group)%nat →
  ∃ b base, is_base cols group b base
            ∧ merge_group cols group = Ok (merged_record cols base (delete b group)).
Proof.
  intros Hlen.
  destruct (find_best_inv group 0 None (-1))
    as [[_ Hle]|(b & base & Hbase & Hfind & _)].
  { destruct group as [|r rest]; [cbn in Hlen; lia|].
    specialize (Hle 0%nat r eq_refl). pose proof (completeness_nonneg r). lia. }
  exists b, base. split; [done|].
  unfold merge_group. destruct Hbase as (Hb & _).
  destruct group as [|r1 [|r2 rest]]; [cbn in Hlen; lia..|].
  rewrite Hfind. cbn [fst]. rewrite Nat.add_0_l, Hb.
  rewrite fill_loop_others by lia. by rewrite Nat.sub_0_r, foldl_ext_fill.
Qed.

(** A field holding a non-empty value is never overwritten. *)
Lemma fill_field_keeps (other working : row) (f field : string) :
  is_empty (cell field working) = false →
  cell field (fill_field other working f) = cell field working.
Proof.
  intros Hne. unfold fill_field.
  destruct (decide (f = field)) as [->|Hf]; [by rewrite Hne|].
  destruct (_ && _); [|done]. unfold cell. by rewrite lookup_insert_ne.
Qed.

Lemma fill_record_keeps (fields : list string) (working other : row) (field : string) :
  is_empty (cell field working) = false →
  cell field (fill_record fields working other) = cell field working.
Proof.
  unfold fill_record. revert working.
  induction fields as [|f fields IH]; intros working Hne; [done|].
  cbn [foldl]. rewrite IH; rewrite fill_field_keeps; done.
Qed.

(** Filling never lowers the count of non-empty original fields. *)
Lemma completeness_insert (working : row) (f : string) (v : value) :
  is_empty v = false →
  completeness cols working ≤ completeness cols (<[f := v]> working).
Proof.
  intros Hv. unfold completeness. apply inj_le.
  induction cols as [|c cs IH]; [done|].
  rewrite !filter_cons.
  destruct (decide ((c ∉ temp_cols) ∧ is_empty (cell c working) = false)) as [[Hc He]|Hn].
  - rewrite decide_True; [cbn; lia|]. split; [done|].
    unfold cell. destruct (decide (f = c)) as [->|Hf].
    + by rewrite lookup_insert_eq.
    + by rewrite lookup_insert_ne.
  - destruct (decide _); cbn; lia.
Qed.

Lemma completeness_fill_record (fields : list string) (working other : row) :
  completeness cols working ≤ completeness cols (fill_record fields working other).
Proof.
  unfold fill_record. revert working.
  induction fields as [|f fields IH]; intros working; [done|].
  cbn [foldl]. etrans; [|apply IH].
  unfold fill_field. destruct (is_empty (cell f working)); [|done].
  destruct (is_empty (cell f other)) eqn:E; [done|].
  by apply completeness_insert.
Qed.

Lemma completeness_merged_record (base : row) (others : list row) :
  completeness cols base ≤ completeness cols (merged_record cols base others).
Proof.
  unfold merged_record. revert base.
  induction others as [|r others IH]; intros base; [done|].
  cbn [foldl]. etrans; [|apply IH]. apply completeness_fill_record.
Qed.

End Merge.

(** C2: on a group of two or more records, the base is the first record
    in group order that has the highest count of non-empty original
    fields (a later record of equal count does not replace it), and the
    merged record is the base filled, for every other record in group
    order and every original field, with the other record's value when
    the working copy's value is empty and the other's is not; a field
    that holds a non-empty value is never overwritten. *)
Theorem merge_group_base_then_fill (cols : list string) (group : list row) :
  (1 < length group)%nat →
  ∃ b base,
    is_base cols group b base
    ∧ merge_group cols group = Ok (merged_record cols base (delete b group))
    ∧ ∀ working other field,
        is_empty (cell field working) = false →
        cell field (fill_record (original_fields cols) working other)
        = cell field working.
Proof.
  intros Hlen. destruct (merge_group_spec cols group Hlen) as (b & base & Hb & Hm).
  exists b, base. split; [done|]. split; [done|].
  intros. by apply fill_record_keeps.
Qed.

Lemma merge_group_base_then_fill_witness :
  ∃ b base,
    is_base cols_brand [rec_blank; rec_acme; rec_priced] b base
    ∧ merge_group cols_brand [rec_blank; rec_acme; rec_priced]
      = Ok (merged_record cols_brand base (delete b [rec_blank; rec_acme; rec_priced]))
    ∧ ∀ working other field,
        is_empty (cell field working) = false →
        cell field (fill_record (original_fields cols_brand) working other)
        = cell field working.
Proof.
  apply (merge_group_base_then_fill cols_brand [rec_blank; rec_acme; rec_priced]).
  cbn. lia.
Defined.

(** C5: on a group of two or more records, the merged record has at
    least as many non-empty original fields as every record of the
    group. *)
Theorem merge_group_completeness (cols : list string) (group : list row) :
  (1 < length group)%nat →
  ∃ merged,
    merge_group cols group = Ok merged
    ∧ ∀ r, r ∈ group → completeness cols r ≤ completeness cols merged.
Proof.
  intros Hlen.
  destruct (merge_group_spec cols group Hlen) as (b & base & (Hb & Hmax & _) & Hm).
  eexists. split; [done|].
  intros r [j Hj]%list_elem_of_lookup.
  etrans; [by eapply Hmax|]. apply completeness_merged_record.
Qed.

Lemma merge_group_completeness_witness :
  ∃ merged,
    merge_group cols_brand [rec_blank; rec_acme; rec_priced] = Ok merged
    ∧ ∀ r, r ∈ [rec_blank; rec_acme; rec_priced] →
           completeness cols_brand r ≤ completeness cols_brand merged.
Proof.
  apply (merge_group_completeness cols_brand [rec_blank; rec_acme; rec_priced]).
  cbn. lia.
Defined.

(** Scenario 2 and the tie-break, computed: [rec_blank] and [rec_acme]
    both have two non-empty fields and the first in group order is the
    base; whichever it is, its empty field is filled from the other and
    its non-empty fields are kept. *)
Example merge_group_scenario :
  completeness cols_brand rec_blank = 2
  ∧ completeness cols_brand rec_acme = 2
  ∧ merge_group cols_brand [rec_blank; rec_acme]
    = Ok {[ "page_url" := Scalar (PyStr "http://a.com/p1");
            "product_name" := Scalar (PyStr EmptyString);
            "brand" := Scalar (PyStr "Acme");
            "price" := Scalar (PyNum 0) ]}
  ∧ merge_group cols_brand [rec_acme; rec_blank]
    = Ok {[ "page_url" := Scalar (PyStr "http://a.com/p1");
            "product_name" := Scalar (PyStr EmptyString);
            "brand" := Scalar (PyStr "Acme");
            "price" := Scalar (PyNum 0) ]}
  ∧ merge_group cols_brand [rec_blank; rec_acme; rec_priced] = Ok rec_priced.
Proof. by vm_compute. Qed.

(** * The whole transform *)

Lemma for_each_length {A B : Type} (f : A → result B) (l : list A) (l' : list B) :
  for_each f l = Ok l' → length l' = length l.
Proof.
  revert l'. induction l as [|a l IH]; intros l'; cbn; [by intros [= <-]|].
  destruct (f a) as [b|]; [|done]. cbn.
  destruct (for_each f l) as [bs|]; [|done]. cbn.
  intros [= <-]. cbn. f_equal. by apply IH.
Qed.

Lemma elem_of_set_col_columns (x c : string) (vals : list value) (df : frame) :
  x ∈ columns (set_col c vals df) ↔ x ∈ columns df ∨ x = c.
Proof.
  cbn. case_bool_decide as Hc.
  - split; [by left|]. by intros [?| ->].
  - rewrite elem_of_app, list_elem_of_singleton. done.
Qed.

Lemma length_rows_set_col (c : string) (vals : list value) (df : frame) :
  length vals = length (rows df) →
  length (rows (set_col c vals df)) = length (rows df).
Proof. intros Hlen. cbn. rewrite length_zip_with. lia. Qed.

Lemma cell_set_col_eq (c : string) (vals : list value) (df : frame) :
  length vals = length (rows df) →
  cell c <$> rows (set_col c vals df) = vals.
Proof.
  cbn [set_col rows]. generalize (rows df) as rs. intros rs. revert vals.
  induction rs as [|r rs IH]; intros [|v vals] Hlen; try done.
  cbn [zip_with]. rewrite fmap_cons. f_equal.
  - unfold cell. by rewrite lookup_insert_eq.
  - apply IH. by simplify_eq/=.
Qed.

Lemma cell_set_col_ne (c c' : string) (vals : list value) (df : frame) :
  c ≠ c' →
  length vals = length (rows df) →
  cell c <$> rows (set_col c' vals df) = cell c <$> rows df.
Proof.
  intros Hc. cbn [set_col rows]. generalize (rows df) as rs. intros rs. revert vals.
  induction rs as [|r rs IH]; intros [|v vals] Hlen; try done.
  cbn [zip_with]. rewrite !fmap_cons. f_equal.
  - unfold cell. by rewrite lookup_insert_ne.
  - apply IH. by simplify_eq/=.
Qed.

Lemma length_rows_with_descriptions (df : frame) (ds : list string) :
  length ds = length (rows df) →
  length (rows (with_descriptions df ds)) = length (rows df).
Proof.
  intros Hlen. unfold with_descriptions.
  set (df1 := set_col "description" _ df).
  assert (length (rows df1) = length (rows df)) as Hdf1
    by (apply length_rows_set_col; by rewrite length_fmap).
  set (df2 := set_col "normalized_desc" _ df1).
  assert (length (rows df2) = length (rows df)) as Hdf2
    by (subst df2; rewrite length_rows_set_col; rewrite ?length_fmap; congruence).
  rewrite length_rows_set_col; [done|].
  unfold desc_prefixes. rewrite !length_fmap. congruence.
Qed.

Lemma cell_with_descriptions (c : string) (df : frame) (ds : list string) :
  length ds = length (rows df) →
  c ∉ ["description"; "normalized_desc"; "desc_prefix"] →
  cell c <$> rows (with_descriptions df ds) = cell c <$> rows df.
Proof.
  intros Hlen Hc. unfold with_descriptions.
  set (df1 := set_col "description" _ df).
  assert (length (rows df1) = length (rows df)) as Hdf1
    by (apply length_rows_set_col; by rewrite length_fmap).
  set (df2 := set_col "normalized_desc" _ df1).
  assert (length (rows df2) = length (rows df)) as Hdf2
    by (subst df2; rewrite length_rows_set_col; rewrite ?length_fmap; congruence).
  rewrite cell_set_col_ne; [|intros ->; apply Hc; compute_done|];
    last (unfold desc_prefixes; rewrite !length_fmap; congruence).
  unfold df2. rewrite cell_set_col_ne; [|intros ->; apply Hc; compute_done|];
    last (rewrite !length_fmap; congruence).
  unfold df1. rewrite cell_set_col_ne; [done|intros ->; apply Hc; compute_done|].
  by rewrite length_fmap.
Qed.

(** The steps of [derive_keys] once the descriptions are extracted: no
    record, no URL column, no URL at all, or the two additions. *)
Lemma derive_keys_nf (df : frame) (ds : list string) :
  for_each get_description (rows df) = Ok ds →
  derive_keys df =
    match rows df with
    | [] => Raise AttributeError
    | _ =>
        if bool_decide ("page_url" ∈ columns df) then
          if forallb is_null (cell "page_url" <$> rows df) then Raise TypeError
          else
            with_sep ← for_each (λ u, obj_add u (PyStr "|||"))
                         (cell "page_url" <$> rows df);
            dedup_key ← for_each (λ up, obj_add up.1 up.2)
                          (zip with_sep (desc_prefixes ds));
            Ok (set_col "dedup_key" dedup_key (with_descriptions df ds))
        else Raise KeyError
    end.
Proof.
  intros Hds. unfold derive_keys. rewrite Hds.
  apply for_each_length in Hds. cbn [mbind result_bind].
  fold (desc_prefixes ds). fold (with_descriptions df ds).
  assert (str_accessor ((Scalar ∘ PyStr ∘ normalize) <$> ds)
          = match rows df with [] => Raise AttributeError | _ => Ok () end) as ->.
  { destruct ds, (rows df); done. }
  destruct (rows df) as [|r rs] eqn:Hrows; [done|]. rewrite <-Hrows in *.
  cbn [mbind result_bind]. set (ds' := ds).
  assert (get_col "page_url" (with_descriptions df ds')
          = if bool_decide ("page_url" ∈ columns df)
            then Ok (cell "page_url" <$> rows df) else Raise KeyError) as ->.
  { unfold get_col. rewrite cell_with_descriptions by (done || compute_done).
    unfold with_descriptions.
    case_bool_decide as H3; case_bool_decide as H0; try done.
    - rewrite !elem_of_set_col_columns in H3. by destruct H3 as [[[?|?]|?]|?].
    - exfalso. apply H3. rewrite !elem_of_set_col_columns. by repeat left. }
  destruct (bool_decide _); [|done]. cbn -[set_col].
  unfold text_operand. by destruct (forallb _ _).
Qed.

(** C3 (as stated, refuted): the second record of [df_null_url] has a
    null URL, yet the transform raises nothing and returns the other
    record; the record without URL is dropped. *)
Lemma deduplicate_drops_null_url :
  (∃ r, r ∈ rows df_null_url ∧ r !! "page_url" = Some (Scalar PyNone))
  ∧ deduplicate df_null_url
    = Ok (Frame ["page_url"; "product_name"]
            [ {[ "page_url" := Scalar (PyStr "http://a.com/p1");
                 "product_name" := Scalar (PyStr "Blue Widget") ]} ]).
Proof.
  split; [|by vm_compute].
  eexists. split; [apply list_elem_of_lookup; by exists 1%nat|done].
Qed.

(** C3 (amended): when no record of the table has a URL (the table has
    no URL column, or the URL of every record is null) the transform
    raises, so the error reaches the caller and there is no output. *)
Theorem deduplicate_without_any_url (df : frame) :
  "page_url" ∉ columns df
  ∨ (∀ r, r ∈ rows df → is_null (cell "page_url" r) = true) →
  ∃ e, deduplicate df = Raise e.
Proof.
  intros Hno. unfold deduplicate.
  destruct (for_each get_description (rows df)) as [ds|e] eqn:Hds.
  2:{ exists e. unfold derive_keys. by rewrite Hds. }
  rewrite (derive_keys_nf _ _ Hds).
  destruct (rows df) as [|r rs] eqn:Hrows; [by eexists|]. rewrite <-Hrows in *.
  case_bool_decide as Hu; [|by eexists].
  destruct Hno as [Hno|Hno]; [done|].
  assert (forallb is_null (cell "page_url" <$> rows df) = true) as ->; [|by eexists].
  apply forallb_forall. intros v (r' & -> & Hr')%list_elem_of_In%list_elem_of_fmap.
  by apply Hno.
Qed.

Lemma deduplicate_without_any_url_witness :
  (∃ e, deduplicate df_no_url = Raise e)
  ∧ (∃ e, deduplicate df_all_null_url = Raise e).
Proof.
  split.
  - apply (deduplicate_without_any_url df_no_url). left. compute_done.
  - apply (deduplicate_without_any_url df_all_null_url). right.
    apply (proj1 (Forall_forall _ _)). compute_done.
Defined.

(** C7 (the code at the failing input): the input column [description]
    is overwritten by the derived field of the same name and dropped
    with it, so the output record lacks a field of the input. *)
Theorem deduplicate_loses_description :
  "description" ∈ columns df_description
  ∧ deduplicate df_description
    = Ok (Frame ["page_url"]
            [ {[ "page_url" := Scalar (PyStr "http://a.com/p1") ]} ]).
Proof. split; [compute_done|by vm_compute]. Qed.

(** Scenario 3, computed: three URLs give three records, in key order,
    unchanged. *)
Example deduplicate_three_urls :
  deduplicate df_three_urls
  = Ok (Frame ["page_url"; "product_name"]
          [ {[ "page_url" := Scalar (PyStr "http://a.com/p1");
               "product_name" := Scalar (PyStr "Blue Widget") ]};
            {[ "page_url" := Scalar (PyStr "http://b.com/p2");
               "product_name" := Scalar NaN ]};
            {[ "page_url" := Scalar (PyStr "http://c.com/p3");
               "product_name" := Scalar (PyStr "Green Thing") ]} ]).
Proof. by vm_compute. Qed.

(** C4 (as stated, refuted): the output of the transform on
    [df_rekeyed] has two records; the merged one has changed key (its
    description is now its title), the keys of the output are equal, and
    a second run merges the two records into one. *)
Lemma deduplicate_not_idempotent :
  deduplicate df_rekeyed = Ok df_rekeyed_once
  ∧ frame_keys df_rekeyed_once
    = Ok [Scalar (PyStr "http://a.com/p1|||red gadget");
          Scalar (PyStr "http://a.com/p1|||red gadget")]
  ∧ deduplicate df_rekeyed_once = Ok df_rekeyed_twice
  ∧ ¬ rows df_rekeyed_twice ≡ₚ rows df_rekeyed_once.
Proof.
  split; [by vm_compute|]. split; [by vm_compute|]. split; [by vm_compute|].
  by intros ?%Permutation_length.
Qed.

(** ** Re-running on an output with distinct keys *)

Lemma lookup_foldr_delete (r : row) (ks : list string) (i : string) :
  foldr delete r ks !! i = if decide (i ∈ ks) then None else r !! i.
Proof.
  induction ks as [|k ks IH]; cbn [foldr]; [done|].
  destruct (decide (k = i)) as [->|Hk].
  - rewrite lookup_delete_eq. rewrite decide_True; [done|by left].
  - rewrite lookup_delete_ne by done. rewrite IH.
    destruct (decide (i ∈ ks)) as [Hi|Hi].
    + rewrite decide_True; [done|by right].
    + rewrite decide_False; [done|]. by intros [->|?]%elem_of_cons.
Qed.

Lemma strip_temp_idem (r : row) : strip_temp (strip_temp r) = strip_temp r.
Proof.
  apply map_eq. intros i. unfold strip_temp. rewrite !lookup_foldr_delete.
  by destruct (decide _).
Qed.

Lemma strip_temp_insert (r : row) (c : string) (v : value) :
  c ∈ temp_cols → strip_temp (<[c := v]> r) = strip_temp r.
Proof.
  intros Hc. apply map_eq. intros i. unfold strip_temp.
  rewrite !lookup_foldr_delete. destruct (decide _) as [|Hi]; [done|].
  apply lookup_insert_ne. by intros ->.
Qed.

Lemma strip_temp_set_col (c : string) (vals : list value) (df : frame) :
  c ∈ temp_cols →
  length vals = length (rows df) →
  strip_temp <$> rows (set_col c vals df) = strip_temp <$> rows df.
Proof.
  intros Hc. cbn [set_col rows]. generalize (rows df) as rs. intros rs. revert vals.
  induction rs as [|r rs IH]; intros [|v vals] Hlen; try done.
  cbn [zip_with]. rewrite !fmap_cons, strip_temp_insert by done.
  f_equal. apply IH. by simplify_eq/=.
Qed.

(** The table with its derived columns is the input table with four
    columns set, each for every record. *)
Lemma derive_keys_inv (df keyed : frame) :
  derive_keys df = Ok keyed →
  ∃ v1 v2 v3 v4,
    length v1 = length (rows df) ∧ length v2 = length (rows df)
    ∧ length v3 = length (rows df) ∧ length v4 = length (rows df)
    ∧ keyed = set_col "dedup_key" v4 (set_col "desc_prefix" v3
                (set_col "normalized_desc" v2 (set_col "description" v1 df))).
Proof.
  destruct (for_each get_description (rows df)) as [ds|] eqn:Hds.
  2:{ unfold derive_keys. by rewrite Hds. }
  rewrite (derive_keys_nf _ _ Hds). apply for_each_length in Hds.
  destruct (rows df) as [|r rs] eqn:Hrows; [done|]. rewrite <-Hrows in *.
  destruct (bool_decide _); [|done].
  destruct (forallb _ _); [done|].
  destruct (for_each _ (_ <$> rows df)) as [ws|] eqn:Hws; [|done].
  apply for_each_length in Hws. rewrite length_fmap in Hws. cbn -[set_col].
  destruct (for_each _ (zip ws _)) as [v4|] eqn:Hv4; [|done].
  apply for_each_length in Hv4. rewrite length_zip in Hv4.
  unfold desc_prefixes in Hv4. rewrite !length_fmap in Hv4. cbn -[set_col].
  intros [= <-].
  exists ((Scalar ∘ PyStr) <$> ds), ((Scalar ∘ PyStr ∘ normalize) <$> ds),
    (desc_prefixes ds), v4.
  unfold desc_prefixes. rewrite !length_fmap.
  split; [done|]. split; [done|]. split; [done|]. split; [lia|done].
Qed.

Lemma derive_keys_strip (df keyed : frame) :
  derive_keys df = Ok keyed →
  strip_temp <$> rows keyed = strip_temp <$> rows df.
Proof.
  intros (v1 & v2 & v3 & v4 & H1 & H2 & H3 & H4 & ->)%derive_keys_inv.
  set (df1 := set_col "description" v1 df).
  assert (length (rows df1) = length (rows df)) as Hdf1
    by by apply length_rows_set_col.
  set (df2 := set_col "normalized_desc" v2 df1).
  assert (length (rows df2) = length (rows df)) as Hdf2
    by (subst df2; rewrite length_rows_set_col; congruence).
  set (df3 := set_col "desc_prefix" v3 df2).
  assert (length (rows df3) = length (rows df)) as Hdf3
    by (subst df3; rewrite length_rows_set_col; congruence).
  rewrite (strip_temp_set_col "dedup_key" v4 df3) by (compute_done || congruence).
  unfold df3.
  rewrite (strip_temp_set_col "desc_prefix" v3 df2) by (compute_done || congruence).
  unfold df2.
  rewrite (strip_temp_set_col "normalized_desc" v2 df1) by (compute_done || congruence).
  unfold df1.
  by rewrite (strip_temp_set_col "description" v1 df) by (compute_done || congruence).
Qed.

Lemma derive_keys_columns (df keyed : frame) :
  derive_keys df = Ok keyed →
  (∀ c, c ∈ temp_cols → c ∉ columns df) →
  columns keyed = columns df ++ temp_cols.
Proof.
  intros (v1 & v2 & v3 & v4 & _ & _ & _ & _ & ->)%derive_keys_inv Hfresh.
  assert (∀ c, c ∈ temp_cols → c ∉ columns df) as Hf by done.
  cbn.
  rewrite (bool_decide_eq_false_2 ("description" ∈ columns df))
    by (apply Hfresh; compute_done).
  rewrite (bool_decide_eq_false_2 ("normalized_desc" ∈ _)).
  2:{ rewrite elem_of_app, list_elem_of_singleton.
      intros [?|?]; [|done]. by eapply (Hfresh "normalized_desc"); [compute_done|]. }
  rewrite (bool_decide_eq_false_2 ("desc_prefix" ∈ _)).
  2:{ rewrite !elem_of_app, !list_elem_of_singleton.
      intros [[?|?]|?]; [|done..]. by eapply (Hfresh "desc_prefix"); [compute_done|]. }
  rewrite (bool_decide_eq_false_2 ("dedup_key" ∈ _)).
  2:{ rewrite !elem_of_app, !list_elem_of_singleton.
      intros [[[?|?]|?]|?]; [|done..]. by eapply (Hfresh "dedup_key"); [compute_done|]. }
  by rewrite <-!(assoc_L (++)).
Qed.

(** Inserting a record under a key that has no group yet adds one
    group of one record. *)
Lemma insert_group_fresh (k : string) (r : row) (gs : list (string * list row)) :
  k ∉ gs.*1 →
  (insert_group k r gs).*1 ≡ₚ k :: gs.*1
  ∧ concat (insert_group k r gs).*2 ≡ₚ r :: concat gs.*2
  ∧ (Forall (λ g, ∃ r', g.2 = [r']) gs →
     Forall (λ g, ∃ r', g.2 = [r']) (insert_group k r gs)).
Proof.
  induction gs as [|[k' rs] gs IH]; intros Hk.
  { cbn. split; [done|]. split; [done|]. intros _. constructor; [by exists r|done]. }
  cbn [insert_group].
  apply not_elem_of_cons in Hk as [Hne Hk].
  destruct (String.eqb_spec k k') as [|_]; [done|].
  destruct (PyStr.ltb k k').
  - cbn. split; [done|]. split; [done|].
    intros H. constructor; [by exists r|done].
  - destruct (IH Hk) as (Hfst & Hsnd & Hsingle). cbn. split; [|split].
    + rewrite Hfst. apply perm_swap.
    + rewrite Hsnd. by rewrite Permutation_middle.
    + intros [H1 H2]%Forall_cons. constructor; [done|]. by apply Hsingle.
Qed.

(** Grouping records of pairwise distinct keys: every group has one
    record, and the groups hold the records of the table. *)
Lemma groupby_distinct (by_ : string) (rs : list row) (ks : list string)
    (gs0 : list (string * list row)) :
  cell by_ <$> rs = (Scalar ∘ PyStr) <$> ks →
  NoDup ks →
  (∀ k, k ∈ ks → k ∉ gs0.*1) →
  Forall (λ g, ∃ r', g.2 = [r']) gs0 →
  Forall (λ g, ∃ r', g.2 = [r']) (foldl (group_step by_) gs0 rs)
  ∧ concat (foldl (group_step by_) gs0 rs).*2 ≡ₚ concat gs0.*2 ++ rs.
Proof.
  revert ks gs0. induction rs as [|r rs IH]; intros ks gs0 Hks Hnd Hfresh Hsingle.
  { cbn. by rewrite app_nil_r. }
  destruct ks as [|k ks]; [done|].
  rewrite !fmap_cons in Hks. injection Hks as Hk Hks.
  apply NoDup_cons in Hnd as [Hk_notin Hnd].
  cbn [foldl]. unfold group_step at 2 4. rewrite Hk. cbn [compose].
  destruct (insert_group_fresh k r gs0) as (Hfst & Hsnd & Hs).
  { apply Hfresh. by left. }
  destruct (IH ks (insert_group k r gs0)) as [IH1 IH2]; [done..| |by apply Hs|].
  { intros k' Hk'. rewrite Hfst. apply not_elem_of_cons. split.
    - by intros ->.
    - apply Hfresh. by right. }
  split; [done|]. rewrite IH2, Hsnd. cbn. by rewrite Permutation_middle.
Qed.

Lemma for_each_merge_singletons (cols : list string) (gs : list (string * list row)) :
  Forall (λ g, ∃ r', g.2 = [r']) gs →
  for_each (λ g, merge_group cols g.2) gs = Ok (concat gs.*2).
Proof.
  induction 1 as [|[k rs] gs [r Hr] _ IH]; [done|].
  cbn in Hr. subst rs. cbn [for_each]. rewrite IH. done.
Qed.

(** What a successful run returns: records without derived fields, at
    least one, under columns that are no derived field. *)
Lemma deduplicate_inv (df out : frame) :
  deduplicate df = Ok out →
  rows out ≠ []
  ∧ strip_temp <$> rows out = rows out
  ∧ ∀ c, c ∈ temp_cols → c ∉ columns out.
Proof.
  unfold deduplicate.
  destruct (derive_keys df) as [keyed|]; [|done]. cbn.
  destruct (for_each _ _) as [records|]; [|done]. cbn.
  unfold drop. destruct (forallb _ _) eqn:Hall; [|done].
  intros [= <-]. cbn. split; [|split].
  - destruct records; [done|]. done.
  - rewrite <-list_fmap_compose. apply list_fmap_ext. intros _ r _.
    apply strip_temp_idem.
  - by intros c Hc [Hn _]%list_elem_of_filter.
Qed.

Lemma filter_original_id (cs : list string) :
  (∀ c, c ∈ temp_cols → c ∉ cs) → filter (λ c, c ∉ temp_cols) cs = cs.
Proof.
  induction cs as [|c cs IH]; intros Hfresh; [done|].
  rewrite filter_cons_True.
  - f_equal. apply IH. intros c' Hc' Hin. eapply Hfresh; [done|by right].
  - intros Hc. eapply Hfresh; [done|by left].
Qed.

(** C4 (amended): when the transform returns a table and the keys
    recomputed from the records of that table are pairwise distinct
    strings, the transform run on that table returns the same columns
    and the same records, up to their order. *)
Theorem deduplicate_again_distinct_keys (df out : frame) (ks : list string) :
  deduplicate df = Ok out →
  frame_keys out = Ok ((Scalar ∘ PyStr) <$> ks) →
  NoDup ks →
  ∃ out', deduplicate out = Ok out'
          ∧ columns out' = columns out
          ∧ rows out' ≡ₚ rows out.
Proof.
  intros (Hne & Hstrip & Hfresh)%deduplicate_inv Hkeys Hnd.
  unfold frame_keys in Hkeys. unfold deduplicate.
  destruct (derive_keys out) as [keyed|] eqn:Hkeyed; [|done].
  cbn in Hkeys. cbn. unfold get_col in Hkeys.
  case_bool_decide; [|done]. injection Hkeys as Hkeys.
  pose proof (derive_keys_strip _ _ Hkeyed) as Hrows. rewrite Hstrip in Hrows.
  pose proof (derive_keys_columns _ _ Hkeyed Hfresh) as Hcols.
  destruct (groupby_distinct "dedup_key" (rows keyed) ks []) as [Hsingle Hperm];
    [done|done|by intros ? _ ?%elem_of_nil|done|].
  unfold groupby. rewrite (for_each_merge_singletons _ _ Hsingle). cbn.
  cbn in Hperm. set (records := concat _) in *.
  assert (records ≠ []) as Hrec.
  { intros Hnil. rewrite Hnil in Hperm. apply Permutation_nil_l in Hperm.
    rewrite <-Hperm in Hrows. by rewrite <-Hrows in Hne. }
  unfold drop, DataFrame. cbn [columns rows].
  replace (match records with [] => [] | _ => columns keyed end)
    with (columns keyed) by (by destruct records).
  rewrite Hcols.
  assert (forallb (λ c, bool_decide (c ∈ columns out ++ temp_cols)) temp_cols = true)
    as ->.
  { apply forallb_forall. intros c Hc%list_elem_of_In.
    apply bool_decide_eq_true_2, elem_of_app. by right. }
  eexists. split; [done|]. cbn [columns rows]. split.
  - rewrite filter_app, filter_original_id by done.
    replace (filter _ temp_cols) with (@nil string) by (by vm_compute).
    by rewrite app_nil_r.
  - change (strip_temp <$> records ≡ₚ rows out). by rewrite Hperm, Hrows.
Qed.

Lemma deduplicate_again_distinct_keys_witness :
  ∃ out', deduplicate df_two_groups_once = Ok out'
          ∧ columns out' = columns df_two_groups_once
          ∧ rows out' ≡ₚ rows df_two_groups_once.
Proof.
  apply (deduplicate_again_distinct_keys df_two_groups df_two_groups_once
           ["http://a.com/p1|||blue widget"; "http://b.com/p2|||red gadget"]).
  - by vm_compute.
  - by vm_compute.
  - compute_done.
Defined.

(** ** The key column, record by record *)

Local Ltac step :=
  cbn -[get_description obj_add cell fillna str_slice_to normalize for_each zip] in *.

(** The three passes of [derive_keys] over the records give the keys
    that [dedup_key] gives record by record. *)
Lemma keys_columnwise (rs : list row) (ks : list value) :
  (ds ← for_each get_description rs;
   ws ← for_each (λ u, obj_add u (PyStr "|||")) (cell "page_url" <$> rs);
   for_each (λ up, obj_add up.1 up.2)
     (zip ws ((fillna "NO_DESC" ∘ str_slice_to 20)
                <$> ((Scalar ∘ PyStr ∘ normalize) <$> ds)))) = Ok ks
  ↔ Forall2 (λ r k, dedup_key r = Ok k) rs ks.
Proof.
  revert ks. induction rs as [|r rs IH]; intros ks.
  { cbn. split.
    - intros [= <-]. constructor.
    - by intros ->%Forall2_nil_inv_l. }
  rewrite fmap_cons. cbn [for_each].
  split.
  - destruct (get_description r) as [d|] eqn:Hd; [|done]. step.
    destruct (for_each get_description rs) as [ds|] eqn:Hds; [|done]. step.
    destruct (obj_add (cell "page_url" r) (PyStr "|||")) as [w|] eqn:Hw; [|done]. step.
    destruct (for_each _ (cell "page_url" <$> rs)) as [ws|] eqn:Hws; [|done]. step.
    rewrite ?fmap_cons. cbn [zip zip_with for_each fst snd]. step.
    destruct (obj_add w _) as [k|] eqn:Hk; [|done]. step.
    destruct (for_each _ (zip ws _)) as [ks'|] eqn:Hks'; [|done]. step.
    intros [= <-]. constructor.
    + unfold dedup_key. rewrite Hd. step. rewrite Hw. step. done.
    + by apply IH.
  - intros (k & ks' & Hk & Hks' & ->)%Forall2_cons_inv_l.
    apply IH in Hks'. unfold dedup_key in Hk.
    destruct (get_description r) as [d|]; [|done]. step.
    destruct (for_each get_description rs) as [ds|]; [|done]. step.
    destruct (obj_add (cell "page_url" r) (PyStr "|||")) as [w|]; [|done]. step.
    destruct (for_each _ (cell "page_url" <$> rs)) as [ws|]; [|done]. step.
    rewrite ?fmap_cons. cbn [zip zip_with for_each fst snd]. step.
    rewrite Hk. step. by rewrite Hks'.
Qed.

Lemma keys_columnwise_nf (df : frame) (ds : list string) (ks : list value) :
  for_each get_description (rows df) = Ok ds →
  (ws ← for_each (λ u, obj_add u (PyStr "|||")) (cell "page_url" <$> rows df);
   for_each (λ up, obj_add up.1 up.2) (zip ws (desc_prefixes ds))) = Ok ks
  ↔ Forall2 (λ r k, dedup_key r = Ok k) (rows df) ks.
Proof.
  intros Hds. rewrite <-keys_columnwise. by rewrite Hds.
Qed.

(** When the [dedup_key] column is computed, it holds the key of every
    record. *)
Lemma frame_keys_Ok_Forall2 (df : frame) (ks : list value) :
  frame_keys df = Ok ks →
  Forall2 (λ r k, dedup_key r = Ok k) (rows df) ks.
Proof.
  unfold frame_keys.
  destruct (for_each get_description (rows df)) as [ds|] eqn:Hds.
  2:{ unfold derive_keys. by rewrite Hds. }
  rewrite (derive_keys_nf _ _ Hds).
  rewrite <-(keys_columnwise_nf df ds ks Hds).
  destruct (rows df) as [|r rs] eqn:Hrows; [done|]. rewrite <-Hrows in *.
  destruct (bool_decide _); [|done].
  destruct (forallb _ _); [done|].
  destruct (for_each _ (cell "page_url" <$> rows df)) as [ws|] eqn:Hws; [|done].
  apply for_each_length in Hws. rewrite length_fmap in Hws. cbn -[set_col].
  destruct (for_each _ (zip ws _)) as [v4|] eqn:Hv4; [|done].
  apply for_each_length in Hv4. rewrite length_zip in Hv4.
  unfold desc_prefixes in Hv4. rewrite !length_fmap in Hv4.
  apply for_each_length in Hds. cbn -[set_col]. unfold get_col.
  rewrite bool_decide_eq_true_2 by (rewrite elem_of_set_col_columns; by right).
  rewrite cell_set_col_eq; [done|].
  rewrite length_rows_with_descriptions by done. lia.
Qed.

(** The [dedup_key] column is computed when the table has a URL column
    with a URL that is not null and the key of every record can be
    computed. *)
Lemma frame_keys_intro (df : frame) (ks : list value) :
  "page_url" ∈ columns df →
  (∃ r, r ∈ rows df ∧ is_null (cell "page_url" r) = false) →
  Forall2 (λ r k, dedup_key r = Ok k) (rows df) ks →
  frame_keys df = Ok ks.
Proof.
  intros Hu (r0 & Hr0 & Hnn) Hks. unfold frame_keys.
  destruct (for_each get_description (rows df)) as [ds|e] eqn:Hds; last first.
  { apply keys_columnwise in Hks. by rewrite Hds in Hks. }
  rewrite (derive_keys_nf _ _ Hds).
  apply (keys_columnwise_nf df ds ks Hds) in Hks.
  destruct (rows df) as [|r rs] eqn:Hrows; [by apply elem_of_nil in Hr0|].
  rewrite <-Hrows in *.
  rewrite bool_decide_eq_true_2 by done.
  assert (forallb is_null (cell "page_url" <$> rows df) = false) as ->.
  { destruct (forallb _ _) eqn:Hall; [|done].
    rewrite forallb_forall in Hall. rewrite Hall in Hnn; [done|].
    apply list_elem_of_In. by apply list_elem_of_fmap_2. }
  destruct (for_each _ (cell "page_url" <$> rows df)) as [ws|] eqn:Hws; [|done].
  apply for_each_length in Hws. rewrite length_fmap in Hws. cbn -[set_col] in *.
  rewrite Hks. apply for_each_length in Hks. rewrite length_zip in Hks.
  unfold desc_prefixes in Hks. rewrite !length_fmap in Hks.
  apply for_each_length in Hds. cbn -[set_col]. unfold get_col.
  rewrite bool_decide_eq_true_2 by (rewrite elem_of_set_col_columns; by right).
  rewrite cell_set_col_eq; [done|].
  rewrite length_rows_with_descriptions by done. lia.
Qed.

Lemma filter_set_col (c : string) (vals : list value) (df : frame) :
  c ∈ temp_cols →
  filter (λ c, c ∉ temp_cols) (columns (set_col c vals df))
  = filter (λ c, c ∉ temp_cols) (columns df).
Proof.
  intros Hc. cbn [columns set_col]. case_bool_decide; [done|].
  rewrite filter_app, filter_cons_False, filter_nil by (by intros Hn).
  by rewrite app_nil_r.
Qed.

(** X11: The columns of the output, whatever the input: the input columns
    that are not named like a derived field. *)
Lemma deduplicate_columns (df out : frame) :
  deduplicate df = Ok out →
  columns out = filter (λ c, c ∉ temp_cols) (columns df).
Proof.
  unfold deduplicate.
  destruct (derive_keys df) as [keyed|] eqn:Hkeyed; [|done]. cbn.
  destruct (for_each _ _) as [records|]; [|done]. cbn.
  unfold drop. destruct (forallb _ _) eqn:Hall; [|done].
  intros [= <-]. cbn [columns DataFrame].
  destruct records as [|r records]; [by vm_compute in Hall|].
  apply derive_keys_inv in Hkeyed as (v1 & v2 & v3 & v4 & _ & _ & _ & _ & ->).
  by rewrite !filter_set_col by compute_done.
Qed.

(** * Further properties of the code *)

(** ** Normalization *)

Section NormalForm.
Import PyStr.

Lemma normalize_join (text : string) :
  normalize text = join " " (lower <$> split text).
Proof.
  unfold normalize. destruct (String.eqb_spec text EmptyString) as [->|_]; [done|].
  by rewrite split_strip, split_lower.
Qed.

Lemma rstrip_app_fixed (s t : string) :
  rstrip t = t → t ≠ EmptyString → rstrip (s +:+ t) = s +:+ t.
Proof.
  intros Ht Hne. induction s as [|c s IH]; [done|].
  rewrite app_cons. cbn [rstrip]. rewrite IH.
  destruct (s +:+ t) eqn:E; [|done].
  destruct s; [by change (t = EmptyString) in E|by rewrite app_cons in E].
Qed.

Lemma rstrip_word (w : string) : no_space w = true → rstrip w = w.
Proof.
  induction w as [|c w IH]; [done|].
  cbn [no_space rstrip]. intros [Hc%negb_true_iff Hw]%andb_true_iff.
  rewrite IH by done. destruct w; [by rewrite Hc|done].
Qed.

Lemma join_cons2 (w w' : string) (ws : list string) :
  join " " (w :: w' :: ws) = w +:+ String " " (join " " (w' :: ws)).
Proof. done. Qed.

Lemma join_words_nonempty (w : string) (ws : list string) :
  is_word w = true → join " " (w :: ws) ≠ EmptyString.
Proof.
  unfold is_word. intros [Hne _]%andb_true_iff.
  destruct w; [done|]. by destruct ws.
Qed.

Lemma rstrip_join (ws : list string) :
  Forall (λ w, is_word w = true) ws → rstrip (join " " ws) = join " " ws.
Proof.
  induction 1 as [|w ws Hw Hws IH]; [done|].
  destruct ws as [|w' ws].
  - apply rstrip_word. unfold is_word in Hw. by apply andb_true_iff in Hw as [_ ?].
  - rewrite join_cons2.
    apply (rstrip_app_fixed w (String " " (join " " (w' :: ws)))); [|done].
    cbn [rstrip]. rewrite IH.
    inversion_clear Hws as [|?? Hw' _].
    pose proof (join_words_nonempty w' ws Hw').
    by destruct (join " " (w' :: ws)).
Qed.

Lemma lstrip_join (ws : list string) :
  Forall (λ w, is_word w = true) ws → lstrip (join " " ws) = join " " ws.
Proof.
  intros Hws. apply lstrip_id. destruct Hws as [|w ws Hw _]; [done|].
  unfold is_word in Hw. apply andb_true_iff in Hw as [Hne Hw].
  destruct w as [|c w]; [done|].
  cbn in Hw. apply andb_true_iff in Hw as [Hc%negb_true_iff _].
  destruct ws; [done|]. by rewrite join_cons2, app_cons.
Qed.

Lemma lower_words (s : string) :
  Forall (λ w, is_word w = true) (lower <$> split s).
Proof. rewrite <-split_lower. apply split_words. Qed.

End NormalForm.

(** X1: The normalized text is the words of the text, lower-cased and
    joined by single spaces: it has no whitespace at either end, is in
    lower case, and its words are the lower-cased words of the text. *)
Theorem normalize_words (text : string) :
  normalize text = PyStr.join " " (PyStr.lower <$> PyStr.split text)
  ∧ PyStr.strip (normalize text) = normalize text
  ∧ PyStr.lower (normalize text) = normalize text
  ∧ PyStr.split (normalize text) = PyStr.lower <$> PyStr.split text.
Proof.
  rewrite normalize_join. split; [done|]. split; [|split].
  - unfold PyStr.strip. by rewrite lstrip_join, rstrip_join by apply lower_words.
  - rewrite lower_join, <-list_fmap_compose.
    f_equal. apply list_fmap_ext. intros _ w _. apply lower_idem.
  - apply split_join, lower_words.
Qed.

(** X2: Two texts have the same normalized form exactly when they have the
    same words up to case. *)
Theorem normalize_eq_iff (text1 text2 : string) :
  normalize text1 = normalize text2
  ↔ PyStr.lower <$> PyStr.split text1 = PyStr.lower <$> PyStr.split text2.
Proof.
  rewrite !normalize_join. split; [|by intros ->].
  intros Heq. apply (f_equal PyStr.split) in Heq.
  by rewrite !split_join in Heq by apply lower_words.
Qed.

(** ** Description extraction: when it raises *)

Lemma first_qualifying_skip (field : string) (fields : list string) (r : row) :
  (∀ s, r !! field = Some (Scalar (PyStr s)) → qualifies (PyStr s) = false) →
  first_qualifying (field :: fields) r = first_qualifying fields r.
Proof.
  intros Hq. cbn [first_qualifying].
  destruct (r !! field) as [[[| | | |s]| |]|]; try done.
  by rewrite (Hq s).
Qed.

Lemma get_description_from_cons (field : string) (rest : list string) (r : row) :
  get_description_from (field :: rest) r
  = match r !! field with
    | Some (NdArray xs) =>
        if (length xs =? 1)%nat then get_description_from rest r
        else Raise ValueError
    | Some (Scalar (PyStr s)) =>
        if qualifies (PyStr s) then Ok (PyStr.strip s)
        else get_description_from rest r
    | _ => get_description_from rest r
    end.
Proof.
  cbn [get_description_from qualifies].
  destruct (r !! field) as [[[| |b|z|s]|xs|xs]|]; cbn [truth]; try done.
  - by destruct (truth_scalar _).
  - by destruct (truth_scalar _).
  - destruct (truth_scalar (PyStr s)) eqn:Hs; [done|].
    cbn in Hs. apply negb_false_iff, String.eqb_eq in Hs. by subst.
  - by destruct (negb _).
  - destruct xs as [|x [|y xs]]; [done| |done]. by destruct (truth_scalar x).
Qed.

Lemma get_description_from_raise_inv (fields : list string) (r : row) (e : exn) :
  get_description_from fields r = Raise e →
  e = ValueError
  ∧ ∃ i field xs,
      fields !! i = Some field ∧ r !! field = Some (NdArray xs)
      ∧ length xs ≠ 1%nat
      ∧ first_qualifying (take i fields) r = None.
Proof.
  induction fields as [|field rest IH]; [done|].
  assert ((∀ s, r !! field = Some (Scalar (PyStr s)) → qualifies (PyStr s) = false) →
          get_description_from rest r = Raise e →
          e = ValueError
          ∧ ∃ i f xs,
              (field :: rest) !! i = Some f ∧ r !! f = Some (NdArray xs)
              ∧ length xs ≠ 1%nat
              ∧ first_qualifying (take i (field :: rest)) r = None) as Hskip.
  { intros Hq (-> & i & f & xs & Hi & Hf & Hlen & Hnone)%IH. split; [done|].
    exists (S i), f, xs. cbn [take]. by rewrite first_qualifying_skip. }
  rewrite get_description_from_cons.
  destruct (r !! field) as [[[| |b|z|s]|xs|xs]|] eqn:Hv; try by apply Hskip.
  - destruct (qualifies (PyStr s)) eqn:Hq; [done|].
    apply Hskip. by intros s' [= <-].
  - destruct (Nat.eqb_spec (length xs) 1); [by apply Hskip|].
    intros [= <-]. split; [done|]. by exists 0%nat, field, xs.
Qed.

Lemma get_description_from_raise_intro (fields : list string) (r : row)
    (i : nat) (field : string) (xs : list scalar) :
  fields !! i = Some field →
  r !! field = Some (NdArray xs) →
  (2 ≤ length xs)%nat →
  first_qualifying (take i fields) r = None →
  get_description_from fields r = Raise ValueError.
Proof.
  revert i. induction fields as [|f rest IH]; intros i Hi Hf Hlen Hnone; [done|].
  rewrite get_description_from_cons. destruct i as [|i].
  { injection Hi as ->. rewrite Hf.
    destruct (Nat.eqb_spec (length xs) 1); [lia|done]. }
  change (rest !! i = Some field) in Hi. cbn [take first_qualifying] in Hnone.
  destruct (r !! f) as [[[| |b|z|s]|ys|ys]|] eqn:Hv; try by eapply IH.
  - destruct (qualifies (PyStr s)); [done|]. by eapply IH.
  - destruct (length ys =? 1)%nat; [by eapply IH|done].
Qed.

(** X3: Description extraction raises only [ValueError].  When it
    raises, a candidate field holds an array whose number of elements is
    not one and no candidate before it qualifies; and it does raise as
    soon as a candidate holds an array of two or more elements and no
    candidate before it qualifies. *)
Theorem get_description_raises (r : row) :
  (∀ e, get_description r = Raise e →
        e = ValueError
        ∧ ∃ i field xs,
            candidate_fields !! i = Some field ∧ r !! field = Some (NdArray xs)
            ∧ length xs ≠ 1%nat
            ∧ first_qualifying (take i candidate_fields) r = None)
  ∧ (∀ i field xs,
        candidate_fields !! i = Some field →
        r !! field = Some (NdArray xs) →
        (2 ≤ length xs)%nat →
        first_qualifying (take i candidate_fields) r = None →
        get_description r = Raise ValueError).
Proof.
  split.
  - intros e. apply get_description_from_raise_inv.
  - intros i field xs. apply get_description_from_raise_intro.
Qed.

(** ** The merged record, field by field *)

Section MergedCells.
Context (cols : list string).

Lemma cell_fill_field (other working : row) (f c : string) :
  cell c (fill_field other working f)
  = if bool_decide (f = c) && is_empty (cell c working)
       && negb (is_empty (cell c other))
    then cell c other else cell c working.
Proof.
  unfold fill_field. case_bool_decide as Hf.
  - subst f. cbn [andb]. destruct (_ && _); [|done].
    unfold cell at 1. by rewrite lookup_insert_eq.
  - cbn [andb]. destruct (_ && _); [|done].
    unfold cell at 1. by rewrite lookup_insert_ne.
Qed.

Lemma cell_fill_record (fields : list string) (working other : row) (c : string) :
  cell c (fill_record fields working other)
  = if bool_decide (c ∈ fields) && is_empty (cell c working)
       && negb (is_empty (cell c other))
    then cell c other else cell c working.
Proof.
  unfold fill_record. revert working.
  induction fields as [|f fields IH]; intros working; [done|].
  cbn [foldl]. rewrite IH, !cell_fill_field.
  destruct (decide (f = c)) as [->|Hf].
  - rewrite (bool_decide_eq_true_2 (c = c)) by done.
    rewrite (bool_decide_eq_true_2 (c ∈ c :: fields)) by by left.
    cbn [andb]. destruct (is_empty (cell c working)) eqn:Ew;
      destruct (is_empty (cell c other)) eqn:Eo; cbn [andb negb];
      rewrite ?Ew, ?Eo, ?andb_false_r; cbn; done.
  - rewrite (bool_decide_eq_false_2 (f = c)) by done. cbn [andb].
    destruct (decide (c ∈ fields)) as [Hc|Hc].
    + by rewrite !bool_decide_eq_true_2 by (done || by right).
    + rewrite !bool_decide_eq_false_2; [done|by intros [->|?]%elem_of_cons|done].
Qed.

Lemma first_nonempty_Some (c : string) (rs : list row) (v : value) :
  first_nonempty c rs = Some v →
  is_empty v = false ∧ ∃ r, r ∈ rs ∧ v = cell c r.
Proof.
  induction rs as [|r rs IH]; [done|]. cbn [first_nonempty].
  destruct (is_empty (cell c r)) eqn:E.
  - intros [? (r' & ? & ?)]%IH. split; [done|]. exists r'. split; [by right|done].
  - intros [= <-]. split; [done|]. exists r. split; [by left|done].
Qed.

Lemma first_nonempty_None (c : string) (rs : list row) :
  first_nonempty c rs = None ↔ ∀ r, r ∈ rs → is_empty (cell c r) = true.
Proof.
  induction rs as [|r rs IH]; cbn [first_nonempty].
  { split; [|done]. by intros _ r ?%elem_of_nil. }
  destruct (is_empty (cell c r)) eqn:E.
  - rewrite IH. split.
    + intros H r' [->|?]%elem_of_cons; [done|by apply H].
    + intros H r' ?. apply H. by right.
  - split; [done|]. intros H. rewrite H in E; [done|by left].
Qed.

Lemma first_nonempty_delete (c : string) (group : list row) (b : nat) (base : row) :
  group !! b = Some base →
  is_empty (cell c base) = true →
  first_nonempty c (delete b group) = first_nonempty c group.
Proof.
  revert b. induction group as [|r rs IH]; intros [|b] Hb He; try done.
  - injection Hb as ->. change (delete 0%nat (base :: rs)) with rs.
    cbn [first_nonempty]. by rewrite He.
  - change (delete (S b) (r :: rs)) with (r :: delete b rs).
    cbn [first_nonempty]. by rewrite (IH b).
Qed.

Lemma cell_merged_record (base : row) (others : list row) (c : string) :
  cell c (merged_record cols base others)
  = if bool_decide (c ∈ original_fields cols) && is_empty (cell c base)
    then default (cell c base) (first_nonempty c others)
    else cell c base.
Proof.
  unfold merged_record. revert base.
  induction others as [|o others IH]; intros base.
  { cbn. by destruct (_ && _). }
  cbn [foldl first_nonempty]. rewrite IH, cell_fill_record.
  destruct (bool_decide (c ∈ original_fields cols)); [|done]. cbn [andb].
  destruct (is_empty (cell c base)) eqn:Eb; cbn [andb]; [|by rewrite Eb].
  destruct (is_empty (cell c o)) eqn:Eo; cbn [negb]; [by rewrite Eb|].
  by rewrite Eo.
Qed.

(** The fields of the merged record of a group of two or more. *)
Lemma merge_group_cells (group : list row) :
  (1 < length group)%nat →
  ∃ b base merged,
    is_base cols group b base
    ∧ merge_group cols group = Ok merged
    ∧ ∀ c, cell c merged
           = if bool_decide (c ∈ original_fields cols) && is_empty (cell c base)
             then default (cell c base) (first_nonempty c group)
             else cell c base.
Proof.
  intros Hlen. destruct (merge_group_spec cols group Hlen) as (b & base & Hb & Hm).
  exists b, base, (merged_record cols base (delete b group)).
  split; [done|]. split; [done|]. intros c. rewrite cell_merged_record.
  destruct (bool_decide _); [|done]. cbn [andb].
  destruct (is_empty (cell c base)) eqn:E; [|done].
  destruct Hb as (Hb & _). by rewrite (first_nonempty_delete c group b base).
Qed.

Lemma fill_record_self (fields : list string) (base : row) :
  fill_record fields base base = base.
Proof.
  unfold fill_record. induction fields as [|f fields IH]; [done|].
  cbn [foldl]. unfold fill_field at 2.
  by destruct (is_empty (cell f base)).
Qed.

Lemma merged_record_same (base : row) (others : list row) :
  Forall (λ o, o = base) others → merged_record cols base others = base.
Proof.
  unfold merged_record. induction 1 as [|o others -> _ IH]; [done|].
  cbn [foldl]. by rewrite fill_record_self.
Qed.

End MergedCells.

(** X5: On a group of two or more records, a derived column and a field
    that is not empty in the base keep the value of the base; an original
    field that is empty in the base takes the value of the first record
    in group order in which it is not empty, and keeps the value of the
    base when it is empty in every record. *)
Theorem merge_group_fieldwise (cols : list string) (group : list row) :
  (1 < length group)%nat →
  ∃ b base merged,
    is_base cols group b base
    ∧ merge_group cols group = Ok merged
    ∧ ∀ c, cell c merged
           = if bool_decide (c ∈ original_fields cols) && is_empty (cell c base)
             then default (cell c base) (first_nonempty c group)
             else cell c base.
Proof. apply merge_group_cells. Qed.

Lemma merge_group_fieldwise_witness :
  ∃ b base merged,
    is_base cols_brand [rec_blank; rec_acme; rec_priced] b base
    ∧ merge_group cols_brand [rec_blank; rec_acme; rec_priced] = Ok merged
    ∧ ∀ c, cell c merged
           = if bool_decide (c ∈ original_fields cols_brand) && is_empty (cell c base)
             then default (cell c base)
                    (first_nonempty c [rec_blank; rec_acme; rec_priced])
             else cell c base.
Proof.
  apply (merge_group_fieldwise cols_brand [rec_blank; rec_acme; rec_priced]).
  cbn. lia.
Defined.

(** X6: On a group of two or more records, an original field of the merged
    record is empty exactly when it is empty in every record of the
    group. *)
Theorem merge_group_empty_iff (cols : list string) (group : list row) :
  (1 < length group)%nat →
  ∃ merged,
    merge_group cols group = Ok merged
    ∧ ∀ c, c ∈ original_fields cols →
           is_empty (cell c merged) = true
           ↔ ∀ r, r ∈ group → is_empty (cell c r) = true.
Proof.
  intros Hlen.
  destruct (merge_group_cells cols group Hlen)
    as (b & base & merged & (Hb & _) & Hm & Hcells).
  exists merged. split; [done|]. intros c Hc. rewrite Hcells.
  rewrite bool_decide_eq_true_2 by done. cbn [andb].
  destruct (is_empty (cell c base)) eqn:Eb.
  - destruct (first_nonempty c group) as [v|] eqn:Ef; cbn [from_option id].
    + apply first_nonempty_Some in Ef as (Hv & r & Hr & ->). split.
      * intros He. by rewrite He in Hv.
      * intros H. by rewrite (H r Hr) in Hv.
    + rewrite Eb. split; [|done]. intros _. by apply first_nonempty_None.
  - rewrite Eb. split; [done|]. intros H.
    rewrite (H base) in Eb; [done|]. apply list_elem_of_lookup. by exists b.
Qed.

Lemma merge_group_empty_iff_witness :
  ∃ merged,
    merge_group cols_brand [rec_blank; rec_acme] = Ok merged
    ∧ ∀ c, c ∈ original_fields cols_brand →
           is_empty (cell c merged) = true
           ↔ ∀ r, r ∈ [rec_blank; rec_acme] → is_empty (cell c r) = true.
Proof.
  apply (merge_group_empty_iff cols_brand [rec_blank; rec_acme]). cbn. lia.
Defined.

(** X7: [merge_group] succeeds on every group that is not empty, and every
    value of the merged record is the value of a record of the group in
    the same column: no value is invented. *)
Theorem merge_group_no_invention (cols : list string) (group : list row) :
  group ≠ [] →
  ∃ merged,
    merge_group cols group = Ok merged
    ∧ ∀ c, ∃ r, r ∈ group ∧ cell c merged = cell c r.
Proof.
  intros Hne. destruct group as [|r1 [|r2 rest]]; [done| |].
  { exists r1. split; [done|]. intros c. exists r1. split; [by left|done]. }
  destruct (merge_group_cells cols (r1 :: r2 :: rest))
    as (b & base & merged & (Hb & _) & Hm & Hcells); [cbn; lia|].
  exists merged. split; [done|]. intros c. rewrite Hcells.
  assert (base ∈ r1 :: r2 :: rest) as Hbase
    by (apply list_elem_of_lookup; by exists b).
  destruct (_ && _); [|by exists base].
  destruct (first_nonempty c _) as [v|] eqn:Ef; [|by exists base].
  apply first_nonempty_Some in Ef as (_ & r & Hr & ->). by exists r.
Qed.

Lemma merge_group_no_invention_witness :
  ∃ merged,
    merge_group cols_brand [rec_blank; rec_acme] = Ok merged
    ∧ ∀ c, ∃ r, r ∈ [rec_blank; rec_acme] ∧ cell c merged = cell c r.
Proof. by apply (merge_group_no_invention cols_brand [rec_blank; rec_acme]). Defined.

(** X8: Merging copies of one record gives that record. *)
Theorem merge_group_copies (cols : list string) (r : row) (n : nat) :
  merge_group cols (replicate (S n) r) = Ok r.
Proof.
  destruct n as [|n]; [done|].
  destruct (merge_group_spec cols (replicate (S (S n)) r))
    as (b & base & (Hb & _) & ->); [cbn; lia|].
  apply lookup_replicate in Hb as [-> _]. f_equal.
  apply merged_record_same. apply Forall_forall. intros o Ho.
  assert (o ∈ replicate (S (S n)) r) as Ho'
    by (eapply elem_of_sublist; [done|apply sublist_delete]).
  by apply elem_of_replicate_inv in Ho'.
Qed.

(** ** Grouping *)

Section KeyOrder.
Import PyStr.

Lemma compare_refl (a : string) : String.compare a a = Eq.
Proof.
  induction a as [|c a IH]; [done|]. cbn.
  unfold Ascii.compare. by rewrite N.compare_refl.
Qed.

Lemma ltb_le_ne (a b : string) : ltb a b = true ↔ String.le a b ∧ a ≠ b.
Proof.
  unfold ltb, String.ltb, String.le, String.leb.
  destruct (String.compare a b) eqn:E.
  - apply String.compare_eq_iff in E. split; [done|]. by intros [_ ?].
  - split; [|done]. intros _. split; [done|]. intros ->.
    by rewrite compare_refl in E.
  - split; [done|]. by intros [? _].
Qed.

Lemma ltb_irrefl (a : string) : ltb a a = false.
Proof.
  destruct (ltb a a) eqn:E; [|done]. by apply ltb_le_ne in E as [_ ?].
Qed.

Lemma ltb_trans (a b c : string) : ltb a b = true → ltb b c = true → ltb a c = true.
Proof.
  rewrite !ltb_le_ne. intros [Hab Hne] [Hbc Hne']. split; [by etrans|].
  intros ->. apply Hne. by apply (anti_symm String.le).
Qed.

Lemma ltb_total (a b : string) : a ≠ b → ltb a b = false → ltb b a = true.
Proof.
  intros Hne Hab. apply ltb_le_ne. split; [|done].
  destruct (total String.le a b) as [Hle|Hle]; [|done].
  assert (ltb a b = true) as Hlt by by apply ltb_le_ne. by rewrite Hlt in Hab.
Qed.

End KeyOrder.

Section Grouping.
Context (by_ : string).

Lemma key_lt_cases (k k' : string) :
  String.eqb k k' = false → PyStr.ltb k k' = false → key_lt k' k.
Proof. intros Hne%String.eqb_neq Hlt. by apply ltb_total. Qed.

(** Inserting a record into groups in key order. *)
Lemma insert_group_sorted (k : string) (r : row) (gs : list (string * list row)) :
  StronglySorted key_lt gs.*1 →
  StronglySorted key_lt (insert_group k r gs).*1
  ∧ (∀ k', k' ∈ (insert_group k r gs).*1 ↔ k' = k ∨ k' ∈ gs.*1)
  ∧ (∀ k' g', (k', g') ∈ insert_group k r gs →
       (k' ≠ k ∧ ((k', g') ∈ gs))
       ∨ (k' = k ∧ ((∃ g, ((k, g) ∈ gs) ∧ g' = g ++ [r])
                    ∨ ((k ∉ gs.*1) ∧ g' = [r])))).
Proof.
  induction gs as [|[k1 g1] gs IH]; intros Hs.
  { cbn. split; [repeat constructor|]. split.
    - intros k'. rewrite list_elem_of_singleton, elem_of_nil. tauto.
    - intros k' g' [= -> ->]%list_elem_of_singleton. right. split; [done|].
      right. split; [apply not_elem_of_nil|done]. }
  cbn [fmap list_fmap fst] in Hs.
  apply StronglySorted_inv in Hs as [Hs Hk1]. cbn [insert_group].
  destruct (String.eqb_spec k k1) as [->|Hne].
  - (* the group of the key exists: the record is appended *)
    split; [by constructor|]. split.
    + intros k'. cbn. rewrite !elem_of_cons. tauto.
    + intros k' g' [[= -> ->]|Hin]%elem_of_cons.
      * right. split; [done|]. left. exists g1. split; [by left|done].
      * left. split; [|by right]. intros ->.
        rewrite Forall_forall in Hk1.
        assert (key_lt k1 k1) as Hlt.
        { apply Hk1. apply list_elem_of_fmap. by exists (k1, g'). }
        unfold key_lt in Hlt. by rewrite ltb_irrefl in Hlt.
  - destruct (PyStr.ltb k k1) eqn:Hlt.
    + (* the key comes before every group: a group is put in front *)
      assert (Forall (key_lt k) gs.*1) as Hall.
      { eapply Forall_impl; [done|]. intros k2 Hk2. by eapply ltb_trans. }
      assert (k ∉ (k1 :: gs.*1)) as Hnotin.
      { intros [->|Hin]%elem_of_cons; [done|].
        rewrite Forall_forall in Hall. specialize (Hall k Hin).
        unfold key_lt in Hall. by rewrite ltb_irrefl in Hall. }
      split; [|split].
      * cbn. constructor; [by constructor|]. by constructor.
      * intros k'. cbn. rewrite !elem_of_cons. tauto.
      * intros k' g' [[= -> ->]|Hin]%elem_of_cons.
        -- right. split; [done|]. by right.
        -- left. split; [|done]. intros ->. apply Hnotin.
           apply (list_elem_of_fmap_2 fst) in Hin. done.
    + (* the key comes after the first group *)
      destruct (IH Hs) as (IHs & IHk & IHm).
      assert (key_lt k1 k) as Hk1k.
      { apply key_lt_cases; [|done]. by apply String.eqb_neq. }
      split; [|split].
      * cbn. constructor; [done|]. apply Forall_forall. intros k' Hk'.
        apply IHk in Hk' as [->|Hk']; [done|].
        rewrite Forall_forall in Hk1. by apply Hk1.
      * intros k'. cbn. rewrite !elem_of_cons, IHk. tauto.
      * intros k' g' [[= -> ->]|Hin]%elem_of_cons.
        -- left. split; [done|by left].
        -- apply IHm in Hin as [[? ?]|[-> [(g & Hg & ->)|[Hnot ->]]]].
           ++ left. split; [done|by right].
           ++ right. split; [done|]. left. exists g. split; [by right|done].
           ++ right. split; [done|]. right. split; [|done].
              cbn. by intros [?|?]%elem_of_cons.
Qed.

Lemma filter_has_key_nil (k : string) (rs : list row) :
  (∀ r, r ∈ rs → has_key by_ k r ≠ true) →
  filter (λ r, has_key by_ k r = true) rs = [].
Proof.
  induction rs as [|r rs IH]; intros Hno; [done|].
  rewrite filter_cons_False by (apply Hno; by left).
  apply IH. intros r' Hr'. apply Hno. by right.
Qed.

Lemma has_key_true (k : string) (r : row) :
  has_key by_ k r = true ↔ cell by_ r = Scalar (PyStr k).
Proof.
  unfold has_key. destruct (cell by_ r) as [[| | | |k']| |]; try done.
  rewrite String.eqb_eq. split; [by intros ->|by intros [= ->]].
Qed.

(** What the loop of [groupby] keeps true of the groups [gs] built from
    the records [seen] so far. *)
Lemma groupby_inv (rs seen : list row) (gs : list (string * list row)) :
  StronglySorted key_lt gs.*1 →
  (∀ k g, (k, g) ∈ gs → g ≠ [] ∧ g = filter (λ r, has_key by_ k r = true) seen) →
  (∀ r k, r ∈ seen → cell by_ r = Scalar (PyStr k) → k ∈ gs.*1) →
  let gs' := foldl (group_step by_) gs rs in
  StronglySorted key_lt gs'.*1
  ∧ (∀ k g, (k, g) ∈ gs' →
            g ≠ [] ∧ g = filter (λ r, has_key by_ k r = true) (seen ++ rs))
  ∧ (∀ r k, r ∈ seen ++ rs → cell by_ r = Scalar (PyStr k) → k ∈ gs'.*1).
Proof.
  revert seen gs. induction rs as [|r rs IH]; intros seen gs Hs Hg Hc.
  { cbn. by rewrite app_nil_r. }
  cbn [foldl]. replace (seen ++ r :: rs) with ((seen ++ [r]) ++ rs)
    by by rewrite <-(assoc_L (++)).
  apply IH; unfold group_step.
  - destruct (cell by_ r) as [[| | | |k]| |]; try done.
    by apply insert_group_sorted.
  - intros k' g' Hin. rewrite filter_app.
    destruct (cell by_ r) as [[| | | |k]| |] eqn:Hr;
      try (rewrite filter_cons_False, filter_nil, app_nil_r;
           [by apply Hg|rewrite has_key_true; by rewrite Hr]).
    destruct (insert_group_sorted k r gs Hs) as (_ & _ & Hm).
    apply Hm in Hin as [[Hne Hin]|[-> [(g & Hin & ->)|[Hnot ->]]]].
    + rewrite filter_cons_False, filter_nil, app_nil_r; [by apply Hg|].
      rewrite has_key_true, Hr. by intros [= ->].
    + rewrite filter_cons_True, filter_nil by by apply has_key_true.
      destruct (Hg _ _ Hin) as [_ <-]. split; [|done]. by destruct g.
    + rewrite filter_cons_True, filter_nil by by apply has_key_true.
      split; [done|].
      replace (filter (λ r0, has_key by_ k r0 = true) seen) with (@nil row); [done|].
      symmetry. apply filter_has_key_nil.
      intros r0 Hr0 Hk%has_key_true. apply Hnot. by eapply Hc.
  - intros r0 k0 [Hin|Hin]%elem_of_app Hk0;
      [|apply list_elem_of_singleton in Hin as ->].
    + destruct (cell by_ r) as [[| | | |k]| |]; try by eapply Hc.
      apply insert_group_sorted; [done|]. right. by eapply Hc.
    + rewrite Hk0. apply insert_group_sorted; [done|]. by left.
Qed.

End Grouping.

(** X9: [groupby]: the groups come in strictly increasing key order; each
    holds the records of the table whose key is the key of the group, in
    table order, and is not empty; every record with a string key has
    its group.  Records with a null key are in no group. *)
Theorem groupby_spec (by_ : string) (df : frame) :
  StronglySorted key_lt (groupby by_ df).*1
  ∧ (∀ k g, (k, g) ∈ groupby by_ df →
            g ≠ [] ∧ g = filter (λ r, has_key by_ k r = true) (rows df))
  ∧ (∀ r k, r ∈ rows df → cell by_ r = Scalar (PyStr k) →
            k ∈ (groupby by_ df).*1).
Proof.
  apply (groupby_inv by_ (rows df) [] []).
  - constructor.
  - by intros k g ?%elem_of_nil.
  - by intros r k ?%elem_of_nil.
Qed.

(** ** The transform, group by group *)

Lemma for_each_Forall2 {A B : Type} (f : A → result B) (l : list A) (l' : list B) :
  for_each f l = Ok l' ↔ Forall2 (λ a b, f a = Ok b) l l'.
Proof.
  revert l'. induction l as [|a l IH]; intros l'; cbn [for_each].
  { split; [intros [= <-]; constructor|by intros ->%Forall2_nil_inv_l]. }
  split.
  - destruct (f a) as [b|] eqn:Hb; [|done]. cbn.
    destruct (for_each f l) as [bs|]; [|done]. cbn.
    intros [= <-]. constructor; [done|]. by apply IH.
  - intros (b & bs & Hb & Hbs & ->)%Forall2_cons_inv_l.
    apply IH in Hbs. rewrite Hb. cbn. by rewrite Hbs.
Qed.

Lemma cell_strip_temp (c : string) (r : row) :
  c ∉ temp_cols → cell c (strip_temp r) = cell c r.
Proof.
  intros Hc. unfold cell, strip_temp. rewrite lookup_foldr_delete.
  by rewrite decide_False.
Qed.

Lemma cell_of_strip_eq (c : string) (r r' : row) :
  c ∉ temp_cols → strip_temp r = strip_temp r' → cell c r = cell c r'.
Proof.
  intros Hc Heq. by rewrite <-(cell_strip_temp c r), <-(cell_strip_temp c r'), Heq.
Qed.

Lemma derive_keys_url_column (df keyed : frame) :
  derive_keys df = Ok keyed → "page_url" ∈ columns df.
Proof.
  destruct (for_each get_description (rows df)) as [ds|] eqn:Hds.
  2:{ unfold derive_keys. by rewrite Hds. }
  rewrite (derive_keys_nf _ _ Hds).
  destruct (rows df); [done|]. by case_bool_decide.
Qed.

Lemma derive_keys_columns_incl (df keyed : frame) (c : string) :
  derive_keys df = Ok keyed → c ∈ columns df → c ∈ columns keyed.
Proof.
  intros (v1 & v2 & v3 & v4 & _ & _ & _ & _ & ->)%derive_keys_inv Hc.
  rewrite !elem_of_set_col_columns. by repeat left.
Qed.

Lemma derive_keys_frame_keys (df keyed : frame) :
  derive_keys df = Ok keyed →
  frame_keys df = Ok (cell "dedup_key" <$> rows keyed).
Proof.
  intros Hk. unfold frame_keys. rewrite Hk. cbn. unfold get_col.
  rewrite bool_decide_eq_true_2; [done|].
  apply derive_keys_inv in Hk as (v1 & v2 & v3 & v4 & _ & _ & _ & _ & ->).
  rewrite elem_of_set_col_columns. by right.
Qed.

Lemma fmap_eq_Forall2 {A B C : Type} (f : A → C) (g : B → C) (l : list A) (k : list B) :
  f <$> l = g <$> k → Forall2 (λ a b, f a = g b) l k.
Proof.
  revert k. induction l as [|a l IH]; intros [|b k] Heq; simplify_eq/=;
    constructor; [done|]. by apply IH.
Qed.

Lemma Forall2_conj {A B : Type} (P Q : A → B → Prop) (l : list A) (k : list B) :
  Forall2 P l k → Forall2 Q l k → Forall2 (λ a b, P a b ∧ Q a b) l k.
Proof.
  intros HP. induction HP as [|a b l k Hab _ IH]; intros HQ; [constructor|].
  apply Forall2_cons_1 in HQ as [HQ1 HQ2]. constructor; [done|]. by apply IH.
Qed.

(** Every record of the table with derived columns is a record of the
    input with its original fields untouched and its own key. *)
Lemma derive_keys_rows (df keyed : frame) :
  derive_keys df = Ok keyed →
  Forall2 (λ r0 r', strip_temp r' = strip_temp r0
                    ∧ dedup_key r0 = Ok (cell "dedup_key" r'))
    (rows df) (rows keyed).
Proof.
  intros Hk. apply Forall2_conj.
  - apply Forall2_flip. apply fmap_eq_Forall2. by apply derive_keys_strip.
  - pose proof (derive_keys_frame_keys _ _ Hk) as Hf.
    apply frame_keys_Ok_Forall2 in Hf.
    by apply Forall2_fmap_r in Hf.
Qed.

(** What a successful run is made of. *)
Lemma deduplicate_groups (df out : frame) :
  deduplicate df = Ok out →
  ∃ keyed merged,
    derive_keys df = Ok keyed
    ∧ Forall2 (λ g m, merge_group (columns keyed) g.2 = Ok m)
        (groupby "dedup_key" keyed) merged
    ∧ merged ≠ []
    ∧ rows out = strip_temp <$> merged.
Proof.
  unfold deduplicate.
  destruct (derive_keys df) as [keyed|] eqn:Hk; [|done]. cbn.
  destruct (for_each _ _) as [merged|] eqn:Hm; [|done]. cbn.
  unfold drop. destruct (forallb _ _) eqn:Hall; [|done].
  intros [= <-]. exists keyed, merged. split; [done|].
  split; [by apply for_each_Forall2|]. split; [|done].
  intros ->. by vm_compute in Hall.
Qed.

Lemma key_lt_sorted_NoDup (ks : list string) : StronglySorted key_lt ks → NoDup ks.
Proof.
  induction 1 as [|k ks _ IH Hall]; constructor; [|done].
  intros Hin. rewrite Forall_forall in Hall. specialize (Hall k Hin).
  unfold key_lt in Hall. by rewrite ltb_irrefl in Hall.
Qed.

Lemma groupby_props (by_ : string) (df : frame) :
  StronglySorted key_lt (groupby by_ df).*1
  ∧ (∀ k g, (k, g) ∈ groupby by_ df →
            g ≠ [] ∧ g = filter (λ r, has_key by_ k r = true) (rows df))
  ∧ (∀ r k, r ∈ rows df → cell by_ r = Scalar (PyStr k) →
            k ∈ (groupby by_ df).*1).
Proof.
  apply (groupby_inv by_ (rows df) [] []); [constructor|..];
    by intros ?? ?%elem_of_nil.
Qed.

Lemma length_remove_dups_le {A : Type} `{EqDecision A} (l : list A) :
  (length (remove_dups l) ≤ length l)%nat.
Proof.
  induction l as [|a l IH]; [done|]. cbn.
  destruct (decide_rel _ _ _); cbn; lia.
Qed.

Lemma length_str_values_le (vals : list value) :
  (length (str_values vals) ≤ length vals)%nat.
Proof.
  unfold str_values. induction vals as [|v vals IH]; [done|]. cbn.
  destruct v as [[| | | |s]| |]; cbn; lia.
Qed.

Lemma elem_of_str_values (k : string) (vals : list value) :
  k ∈ str_values vals ↔ Scalar (PyStr k) ∈ vals.
Proof.
  unfold str_values. rewrite list_elem_of_omap. split.
  - intros (v & Hv & Hk). by destruct v as [[| | | |s]| |]; simplify_eq.
  - intros Hin. by exists (Scalar (PyStr k)).
Qed.

(** The keys of the groups are the distinct strings of the key column. *)
Lemma groupby_keys (by_ : string) (df : frame) :
  (groupby by_ df).*1 ≡ₚ remove_dups (str_values (cell by_ <$> rows df)).
Proof.
  destruct (groupby_props by_ df) as (Hs & Hg & Hc).
  apply NoDup_Permutation;
    [by apply key_lt_sorted_NoDup|apply NoDup_remove_dups|].
  intros k. rewrite elem_of_remove_dups, elem_of_str_values. split.
  - intros ([k' g] & -> & Hin)%list_elem_of_fmap. cbn.
    destruct (Hg _ _ Hin) as [Hne Heq]. destruct g as [|r g]; [done|].
    assert (r ∈ filter (λ r, has_key by_ k' r = true) (rows df)) as Hr
      by (rewrite <-Heq; by left).
    apply list_elem_of_filter in Hr as [Hk%has_key_true Hr].
    rewrite <-Hk. by apply list_elem_of_fmap_2.
  - intros (r & Hk & Hr)%list_elem_of_fmap. by eapply Hc.
Qed.

(** X10: When the column [dedup_key] is computed, the table has a
    record and a [page_url] column, and the column holds for every
    record the key of that record; and it is computed whenever the table
    has a [page_url] column, some record has a string URL and the key of
    every record can be computed. *)
Theorem frame_keys_record_by_record (df : frame) (ks : list value) :
  (frame_keys df = Ok ks →
   rows df ≠ [] ∧ "page_url" ∈ columns df
   ∧ Forall2 (λ r k, dedup_key r = Ok k) (rows df) ks)
  ∧ ("page_url" ∈ columns df →
     (∃ r u, r ∈ rows df ∧ cell "page_url" r = Scalar (PyStr u)) →
     Forall2 (λ r k, dedup_key r = Ok k) (rows df) ks →
     frame_keys df = Ok ks).
Proof.
  split.
  - intros Hk. split; [|split; [|by apply frame_keys_Ok_Forall2]].
    + unfold frame_keys in Hk.
      destruct (for_each get_description (rows df)) as [ds|] eqn:Hds.
      2:{ unfold derive_keys in Hk. by rewrite Hds in Hk. }
      rewrite (derive_keys_nf _ _ Hds) in Hk. by destruct (rows df).
    + unfold frame_keys in Hk.
      destruct (derive_keys df) as [keyed|] eqn:Hkeyed; [|done].
      by eapply derive_keys_url_column.
  - intros Hu (r & u & Hr & Hcell) Hks. apply frame_keys_intro; [done| |done].
    exists r. split; [done|]. by rewrite Hcell.
Qed.

(** X12: A run that succeeds had at least one record to read, returns at
    least one record, and no record it returns holds a derived field. *)
Theorem deduplicate_output_shape (df out : frame) :
  deduplicate df = Ok out →
  rows df ≠ [] ∧ rows out ≠ []
  ∧ ∀ r c, r ∈ rows out → c ∈ temp_cols → r !! c = None.
Proof.
  intros Hout.
  destruct (deduplicate_groups _ _ Hout) as (keyed & merged & Hk & Hm & Hne & Hrows).
  split; [|split].
  - intros Hnil. apply derive_keys_rows in Hk. rewrite Hnil in Hk.
    apply Forall2_nil_inv_l in Hk. apply Hne.
    unfold groupby in Hm. rewrite Hk in Hm. by apply Forall2_nil_inv_l in Hm.
  - rewrite Hrows. by destruct merged.
  - intros r c Hr Hc. rewrite Hrows in Hr.
    apply list_elem_of_fmap in Hr as (m & -> & _).
    unfold strip_temp. rewrite lookup_foldr_delete. by rewrite decide_True.
Qed.

Lemma deduplicate_output_shape_witness :
  rows df_rekeyed ≠ [] ∧ rows df_rekeyed_once ≠ []
  ∧ ∀ r c, r ∈ rows df_rekeyed_once → c ∈ temp_cols → r !! c = None.
Proof. apply (deduplicate_output_shape df_rekeyed df_rekeyed_once). by vm_compute. Defined.

(** X13: The counts the script prints agree: the number of records returned
    is the number of distinct keys (line 52), so the duplicates removed
    (line 132) are the potential duplicates (line 53), and their number
    is not negative. *)
Theorem deduplicate_count (df out : frame) :
  deduplicate df = Ok out →
  ∃ keys,
    frame_keys df = Ok keys
    ∧ length (rows out) = nunique keys
    ∧ duplicates_removed df out = potential_duplicates df keys
    ∧ 0 ≤ duplicates_removed df out.
Proof.
  intros Hout.
  destruct (deduplicate_groups _ _ Hout) as (keyed & merged & Hk & Hm & Hne & Hrows).
  exists (cell "dedup_key" <$> rows keyed).
  split; [by apply derive_keys_frame_keys|].
  assert (length (rows out) = nunique (cell "dedup_key" <$> rows keyed)) as Hlen.
  { rewrite Hrows, length_fmap. apply Forall2_length in Hm. rewrite <-Hm.
    unfold nunique. rewrite <-(groupby_keys "dedup_key" keyed). by rewrite length_fmap. }
  split; [done|]. unfold duplicates_removed, potential_duplicates.
  rewrite Hlen. split; [done|].
  apply derive_keys_rows, Forall2_length in Hk.
  pose proof (length_remove_dups_le (str_values (cell "dedup_key" <$> rows keyed))).
  pose proof (length_str_values_le (cell "dedup_key" <$> rows keyed)) as Hle.
  rewrite length_fmap in Hle. unfold nunique. lia.
Qed.

Lemma deduplicate_count_witness :
  ∃ keys,
    frame_keys df_rekeyed = Ok keys
    ∧ length (rows df_rekeyed_once) = nunique keys
    ∧ duplicates_removed df_rekeyed df_rekeyed_once
      = potential_duplicates df_rekeyed keys
    ∧ 0 ≤ duplicates_removed df_rekeyed df_rekeyed_once.
Proof. apply (deduplicate_count df_rekeyed df_rekeyed_once). by vm_compute. Defined.

Lemma merge_group_pick (cols : list string) (group : list row) (merged : row) (c : string) :
  merge_group cols group = Ok merged →
  group ≠ [] →
  ∃ r, r ∈ group ∧ cell c merged = cell c r.
Proof.
  intros Hm Hne. destruct group as [|r1 [|r2 rest]]; [done| |].
  { injection Hm as <-. exists r1. split; [by left|done]. }
  destruct (merge_group_cells cols (r1 :: r2 :: rest))
    as (b & base & merged' & (Hb & _) & Hm' & Hcells); [cbn; lia|].
  rewrite Hm in Hm'. injection Hm' as <-. rewrite Hcells.
  assert (base ∈ r1 :: r2 :: rest) as Hbase
    by (apply list_elem_of_lookup; by exists b).
  destruct (_ && _); [|by exists base].
  destruct (first_nonempty c _) as [v|] eqn:Ef; [|by exists base].
  apply first_nonempty_Some in Ef as (_ & r & Hr & ->). by exists r.
Qed.

Lemma merge_group_keeps_nonempty (cols : list string) (group : list row)
    (merged r : row) (c : string) :
  merge_group cols group = Ok merged →
  r ∈ group →
  c ∈ original_fields cols →
  is_empty (cell c r) = false →
  is_empty (cell c merged) = false.
Proof.
  intros Hm Hr Hc He. destruct group as [|r1 [|r2 rest]].
  { by apply elem_of_nil in Hr. }
  { injection Hm as <-. by apply list_elem_of_singleton in Hr as ->. }
  destruct (merge_group_cells cols (r1 :: r2 :: rest))
    as (b & base & merged' & _ & Hm' & Hcells); [cbn; lia|].
  rewrite Hm in Hm'. injection Hm' as <-. rewrite Hcells.
  rewrite bool_decide_eq_true_2 by done. cbn [andb].
  destruct (is_empty (cell c base)) eqn:Eb; [|done].
  destruct (first_nonempty c _) as [v|] eqn:Ef.
  - by apply first_nonempty_Some in Ef as [? _].
  - rewrite first_nonempty_None in Ef. by rewrite (Ef r Hr) in He.
Qed.

(** X14: Every record returned has a key such that each of its values is
    the value, in the same column, of an input record of that key: the
    output is assembled from input records that share a key, and from
    nothing else. *)
Theorem deduplicate_provenance (df out : frame) :
  deduplicate df = Ok out →
  ∀ r, r ∈ rows out →
  ∃ k, ∀ c, c ∉ temp_cols →
    ∃ r0, r0 ∈ rows df
          ∧ dedup_key r0 = Ok (Scalar (PyStr k))
          ∧ cell c r = cell c r0.
Proof.
  intros Hout r Hr.
  destruct (deduplicate_groups _ _ Hout) as (keyed & merged & Hk & Hm & _ & Hrows).
  rewrite Hrows in Hr. apply list_elem_of_fmap in Hr as (m & -> & Hin).
  apply list_elem_of_lookup in Hin as [j Hj].
  destruct (Forall2_lookup_r _ _ _ _ _ Hm Hj) as ([k g] & Hg & Hmg).
  cbn in Hmg. exists k. intros c Hc.
  destruct (groupby_props "dedup_key" keyed) as (_ & Hgroups & _).
  destruct (Hgroups k g) as [Hne Hfilter]; [apply list_elem_of_lookup; by exists j|].
  destruct (merge_group_pick _ _ _ c Hmg Hne) as (r' & Hr' & Hcell).
  rewrite Hfilter in Hr'.
  apply list_elem_of_filter in Hr' as [Hkey%has_key_true Hr'].
  apply list_elem_of_lookup in Hr' as [i Hi].
  destruct (Forall2_lookup_r _ _ _ _ _ (derive_keys_rows _ _ Hk) Hi)
    as (r0 & Hr0 & Hstrip & Hkey0).
  exists r0. split; [apply list_elem_of_lookup; by exists i|].
  split; [by rewrite Hkey0, Hkey|].
  rewrite cell_strip_temp, Hcell by done. by apply cell_of_strip_eq.
Qed.

Lemma deduplicate_provenance_witness :
  deduplicate df_rekeyed = Ok df_rekeyed_once
  ∧ ∀ r, r ∈ rows df_rekeyed_once →
    ∃ k, ∀ c, c ∉ temp_cols →
      ∃ r0, r0 ∈ rows df_rekeyed
            ∧ dedup_key r0 = Ok (Scalar (PyStr k))
            ∧ cell c r = cell c r0.
Proof.
  assert (deduplicate df_rekeyed = Ok df_rekeyed_once) as H by by vm_compute.
  split; [exact H|]. exact (deduplicate_provenance df_rekeyed df_rekeyed_once H).
Defined.

(** X15: No field is lost: for every input record that has a key, some
    record returned has a non-empty value in every column of the input
    (other than a column named like a derived field) in which that input
    record has one. *)
Theorem deduplicate_keeps_fields (df out : frame) :
  deduplicate df = Ok out →
  ∀ r0 k, r0 ∈ rows df → dedup_key r0 = Ok (Scalar (PyStr k)) →
  ∃ r, r ∈ rows out
       ∧ ∀ c, c ∈ columns df → c ∉ temp_cols →
              is_empty (cell c r0) = false → is_empty (cell c r) = false.
Proof.
  intros Hout r0 k Hr0 Hkey0.
  destruct (deduplicate_groups _ _ Hout) as (keyed & merged & Hk & Hm & _ & Hrows).
  apply list_elem_of_lookup in Hr0 as [i Hi].
  destruct (Forall2_lookup_l _ _ _ _ _ (derive_keys_rows _ _ Hk) Hi)
    as (r' & Hr' & Hstrip & Hkey).
  rewrite Hkey0 in Hkey. injection Hkey as Hkey. symmetry in Hkey.
  destruct (groupby_props "dedup_key" keyed) as (_ & Hgroups & Hcover).
  assert (r' ∈ rows keyed) as Hin' by (apply list_elem_of_lookup; by exists i).
  specialize (Hcover r' k Hin' Hkey).
  apply list_elem_of_fmap in Hcover as ([k' g] & -> & Hg). cbn in Hkey.
  destruct (Hgroups _ _ Hg) as [_ Hfilter].
  apply list_elem_of_lookup in Hg as [j Hj].
  destruct (Forall2_lookup_l _ _ _ _ _ Hm Hj) as (m & Hmj & Hmg). cbn in Hmg.
  exists (strip_temp m). split.
  { rewrite Hrows. apply list_elem_of_fmap_2. apply list_elem_of_lookup. by exists j. }
  intros c Hc Hct He. rewrite cell_strip_temp by done.
  eapply (merge_group_keeps_nonempty _ g m r'); [done| | |].
  - rewrite Hfilter. apply list_elem_of_filter. split; [by apply has_key_true|done].
  - apply list_elem_of_filter. split; [done|]. by eapply derive_keys_columns_incl.
  - by rewrite (cell_of_strip_eq c r' r0).
Qed.

Lemma deduplicate_keeps_fields_witness :
  deduplicate df_rekeyed = Ok df_rekeyed_once
  ∧ ∀ r0 k, r0 ∈ rows df_rekeyed → dedup_key r0 = Ok (Scalar (PyStr k)) →
    ∃ r, r ∈ rows df_rekeyed_once
         ∧ ∀ c, c ∈ columns df_rekeyed → c ∉ temp_cols →
                is_empty (cell c r0) = false → is_empty (cell c r) = false.
Proof.
  assert (deduplicate df_rekeyed = Ok df_rekeyed_once) as H by by vm_compute.
  split; [exact H|]. exact (deduplicate_keeps_fields df_rekeyed df_rekeyed_once H).
Defined.

Lemma strip_temp_id (r : row) :
  (∀ c, c ∈ temp_cols → r !! c = None) → strip_temp r = r.
Proof.
  intros Hr. apply map_eq. intros i. unfold strip_temp.
  rewrite lookup_foldr_delete. destruct (decide (i ∈ temp_cols)); [|done].
  by rewrite Hr.
Qed.

(** X16: A table of pairwise distinct string keys that holds no derived
    field comes back with the same columns and the same records, up to
    their order: nothing is merged and nothing is changed. *)
Theorem deduplicate_distinct_keys (df : frame) (ks : list string) :
  frame_keys df = Ok ((Scalar ∘ PyStr) <$> ks) →
  NoDup ks →
  rows df ≠ [] →
  (∀ c, c ∈ temp_cols → c ∉ columns df) →
  (∀ r c, r ∈ rows df → c ∈ temp_cols → r !! c = None) →
  ∃ out, deduplicate df = Ok out
         ∧ columns out = columns df
         ∧ rows out ≡ₚ rows df.
Proof.
  intros Hkeys Hnd Hne Hfresh Hfields.
  assert (strip_temp <$> rows df = rows df) as Hstrip.
  { rewrite <-(list_fmap_id (rows df)) at 2. apply list_fmap_ext.
    intros i r Hr. apply strip_temp_id. intros c Hc.
    eapply Hfields; [|done]. apply list_elem_of_lookup. by exists i. }
  unfold frame_keys in Hkeys. unfold deduplicate.
  destruct (derive_keys df) as [keyed|] eqn:Hkeyed; [|done].
  cbn in Hkeys. cbn. unfold get_col in Hkeys.
  case_bool_decide; [|done]. injection Hkeys as Hkeys.
  pose proof (derive_keys_strip _ _ Hkeyed) as Hrows. rewrite Hstrip in Hrows.
  pose proof (derive_keys_columns _ _ Hkeyed Hfresh) as Hcols.
  destruct (groupby_distinct "dedup_key" (rows keyed) ks []) as [Hsingle Hperm];
    [done|done|by intros ? _ ?%elem_of_nil|done|].
  unfold groupby. rewrite (for_each_merge_singletons _ _ Hsingle). cbn.
  cbn in Hperm. set (records := concat _) in *.
  assert (records ≠ []) as Hrec.
  { intros Hnil. rewrite Hnil in Hperm. apply Permutation_nil_l in Hperm.
    rewrite <-Hperm in Hrows. by rewrite <-Hrows in Hne. }
  unfold drop, DataFrame. cbn [columns rows].
  replace (match records with [] => [] | _ => columns keyed end)
    with (columns keyed) by (by destruct records).
  rewrite Hcols.
  assert (forallb (λ c, bool_decide (c ∈ columns df ++ temp_cols)) temp_cols = true)
    as ->.
  { apply forallb_forall. intros c Hc%list_elem_of_In.
    apply bool_decide_eq_true_2, elem_of_app. by right. }
  eexists. split; [done|]. cbn [columns rows]. split.
  - rewrite filter_app, filter_original_id by done.
    replace (filter _ temp_cols) with (@nil string) by (by vm_compute).
    by rewrite app_nil_r.
  - change (strip_temp <$> records ≡ₚ rows df). by rewrite Hperm, Hrows.
Qed.

Lemma deduplicate_distinct_keys_witness :
  ∃ out, deduplicate df_three_urls = Ok out
         ∧ columns out = columns df_three_urls
         ∧ rows out ≡ₚ rows df_three_urls.
Proof.
  apply (deduplicate_distinct_keys df_three_urls
           ["http://c.com/p3|||green thing"; "http://a.com/p1|||blue widget";
            "http://b.com/p2|||"]).
  - by vm_compute.
  - compute_done.
  - done.
  - apply (proj1 (Forall_forall _ _)). compute_done.
  - intros r c Hr. revert c. apply (proj1 (Forall_forall _ _)).
    revert r Hr. apply (proj1 (Forall_forall _ _)). compute_done.
Defined.

(** ** A URL that is not text *)

Lemma for_each_raises {A B : Type} (f : A → result B) (l : list A) (e0 : exn) :
  (∀ a e, f a = Raise e → e = e0) →
  (∃ a e, a ∈ l ∧ f a = Raise e) →
  for_each f l = Raise e0.
Proof.
  intros Honly (a & e & Ha & He). induction l as [|x l IH].
  { by apply elem_of_nil in Ha. }
  cbn [for_each]. destruct (f x) as [b|e'] eqn:Hx.
  - apply elem_of_cons in Ha as [->|Ha]; [by rewrite Hx in He|].
    cbn. by rewrite (IH Ha).
  - cbn. f_equal. by eapply Honly.
Qed.

Lemma obj_add_sep_raises (u : value) (e : exn) :
  obj_add u (Scalar (PyStr "|||")) = Raise e → e = TypeError.
Proof. destruct u as [[| | | |s]| |]; by intros [= <-]. Qed.

(** X17: On a table with a [page_url] column whose descriptions can all be
    extracted, one URL that is neither null nor a string (a number, a
    boolean, a list, an array) makes the whole run raise [TypeError]:
    there is no output for the other records either. *)
Theorem deduplicate_url_type_error (df : frame) (ds : list string) :
  "page_url" ∈ columns df →
  for_each get_description (rows df) = Ok ds →
  (∃ r, r ∈ rows df ∧ url_not_text (cell "page_url" r) = true) →
  deduplicate df = Raise TypeError.
Proof.
  intros Hu Hds (r & Hr & Hbad). unfold deduplicate.
  rewrite (derive_keys_nf _ _ Hds).
  destruct (rows df) as [|r0 rs] eqn:Hrows; [by apply elem_of_nil in Hr|].
  rewrite <-Hrows in *. rewrite bool_decide_eq_true_2 by done.
  destruct (forallb _ _); [done|].
  rewrite (for_each_raises _ _ TypeError); [done|apply obj_add_sep_raises|].
  exists (cell "page_url" r), TypeError. split; [by apply list_elem_of_fmap_2|].
  by destruct (cell "page_url" r) as [[| | | |s]| |].
Qed.

Lemma deduplicate_url_type_error_witness :
  deduplicate df_numeric_url = Raise TypeError.
Proof.
  apply (deduplicate_url_type_error df_numeric_url ["Blue Widget"; "Red Gadget"]).
  - compute_done.
  - by vm_compute.
  - eexists. split; [apply list_elem_of_lookup; by exists 1%nat|by vm_compute].
Defined.

Lemma deduplicate_columns_witness :
  columns df_rekeyed_once = filter (λ c, c ∉ temp_cols) (columns df_rekeyed).
Proof. apply (deduplicate_columns df_rekeyed df_rekeyed_once). by vm_compute. Defined.

(** ** Missing values and empty values *)

Lemma isnull_cell_is_empty (v : value) : isnull_cell v = true → is_empty v = true.
Proof. by destruct v as [[| | | |s]| |]. Qed.

Lemma length_filter_impl {A : Type} (P Q : A → Prop)
    `{∀ x, Decision (P x)} `{∀ x, Decision (Q x)} (l : list A) :
  (∀ x, P x → Q x) → (length (filter P l) ≤ length (filter Q l))%nat.
Proof.
  intros HPQ. induction l as [|x l IH]; [done|].
  rewrite !filter_cons. destruct (decide (P x)) as [HP|HP].
  - rewrite decide_True by by apply HPQ. cbn. lia.
  - destruct (decide (Q x)); cbn; lia.
Qed.

(** X18: A cell the exploration script counts as missing is empty for the
    merger, so for every column the missing count is at most the number
    of records the merger takes as empty there, which is at most the
    number of records; a blank string is empty without being missing. *)
Theorem missing_count_le_empty_count (c : string) (df : frame) :
  (missing_count c df ≤ empty_count c df)%nat
  ∧ (empty_count c df ≤ length (rows df))%nat
  ∧ isnull_cell (Scalar (PyStr " ")) = false
  ∧ is_empty (Scalar (PyStr " ")) = true.
Proof.
  split; [|split; [apply length_filter|done]].
  apply length_filter_impl. intros r. apply isnull_cell_is_empty.
Qed.

(** ** The error paths, computed *)

(** An empty array in a candidate field makes the extraction raise; a
    table without record fails at the string accessor of line 49, before
    the URL column is read; a table whose URLs are all null fails at the
    addition of line 50. *)
Example error_paths :
  get_description rec_empty_array = Raise ValueError
  ∧ deduplicate (Frame ["page_url"; "product_name"] []) = Raise AttributeError
  ∧ deduplicate (Frame ["product_name"] []) = Raise AttributeError
  ∧ frame_keys df_all_null_url = Raise TypeError
  ∧ deduplicate df_all_null_url = Raise TypeError
  ∧ deduplicate df_no_url = Raise KeyError.
Proof. by vm_compute. Qed.
